(** * fanoutwriter: one writer, many variable-speed readers

    A shallow embedding of [fanoutwriter.go] and a verification of the
    statements its specification makes about it.

    Modelling conventions.

    - A Go [[]byte] is a [list byte]; [len] is its length as an integer.
      The slice expression [s[low:]] is [slice_from], which panics exactly
      when Go does (low < 0 or low > len(s)).
    - A Go [int] is a [Z].  The code only adds and subtracts offsets and
      lengths, and [reachable_offsets_in_range] with
      [offsets_in_range_step] bounds every one of them by the end of the
      buffer, which grows by at most the number of bytes written: the
      development speaks about streams shorter than the range of [int],
      where machine and mathematical arithmetic agree.  Differences such as
      [c.off - f.off] may be negative and are kept signed, as in the code.
    - A [*client] is an address ([ptr]).  The [off] field of every client
      ever allocated lives in the [heap] of the [store]; the map
      [clients map[*client]struct{}] is the finite set of registered
      addresses.  A client that was deleted from [clients] keeps its heap
      cell: the Go code can still call [Read] and [Close] on it.
    - Every method holds the writer's mutex for its whole body, so a method
      call is one atomic transition of the store.  The only exception is
      [update.Wait()] inside [Read]: the call gives the lock up and starts
      the loop body again once woken.  One run of the loop body is the
      atomic transition [client_Read]; the result [ReadWait] says that the
      call is suspended and will run the body again later.
    - A Go run-time panic is the result [Panic]; [Dangling] is a call
      through an address that was never allocated, which a Go program cannot
      make.
    - [f.buf = p[len(p)-f.c.Limit:]] makes the buffer share memory with the
      caller's slice.  Slices are values here: what a caller does to [p]
      after [Write] returned is outside the model. *)

From Stdlib Require Import ZArith List Lia.
From stdpp Require Import base tactics option numbers list gmap sets.

Local Open Scope Z_scope.

(** ** Data *)

Abbreviation byte := Byte.byte.
Abbreviation ptr := nat.

(** [ErrFellBehind] is declared by the package; [io.ErrClosedPipe] and
    [io.EOF] come from the standard library. *)
Inductive error : Type :=
| ErrFellBehind
| ErrClosedPipe
| EOF.

Inductive panic : Type :=
| SliceBounds (low length : Z)
| NewReaderWhenClosed.

Inductive res (A : Type) : Type :=
| Ok (a : A)
| Panic (p : panic)
| Dangling.

Arguments Ok {A} a.
Arguments Panic {A} p.
Arguments Dangling {A}.

#[global] Instance res_ret : MRet res := λ A a, Ok a.
#[global] Instance res_bind : MBind res := λ A B k m,
  match m with
  | Ok a => k a
  | Panic p => Panic p
  | Dangling => Dangling
  end.

#[global] Instance error_eq_dec : EqDecision error.
Proof. solve_decision. Defined.

Record FanoutWriterConfig : Type := {
  Buf : list byte;
  Limit : Z;
  ReadFromStart : bool
}.

Record fwriter : Type := {
  buf : list byte;
  c : FanoutWriterConfig;
  off : Z;
  clients : gset ptr;
  closed : bool
}.

(** The writer together with the [off] field of every allocated client. *)
Record store : Type := {
  fw : fwriter;
  heap : gmap ptr Z
}.

Definition len {A : Type} (l : list A) : Z := Z.of_nat (length l).

(** [s[low:]] *)
Definition slice_from {A : Type} (s : list A) (low : Z) : res (list A) :=
  if (0 <=? low) && (low <=? len s)
  then Ok (drop (Z.to_nat low) s)
  else Panic (SliceBounds low (len s)).

(** [copy(dst, src)]: the new contents of [dst] and the number of bytes
    copied. *)
Definition copy {A : Type} (dst src : list A) : list A * Z :=
  (take (length dst) src ++ drop (length src) dst,
   Z.min (len dst) (len src)).

(** Field updates. *)
Definition set_buf (b : list byte) (f : fwriter) : fwriter :=
  {| buf := b; c := c f; off := off f; clients := clients f; closed := closed f |}.
Definition set_off (o : Z) (f : fwriter) : fwriter :=
  {| buf := buf f; c := c f; off := o; clients := clients f; closed := closed f |}.
Definition set_clients (cs : gset ptr) (f : fwriter) : fwriter :=
  {| buf := buf f; c := c f; off := off f; clients := cs; closed := closed f |}.
Definition set_closed (b : bool) (f : fwriter) : fwriter :=
  {| buf := buf f; c := c f; off := off f; clients := clients f; closed := b |}.
Definition with_fw (f : fwriter) (s : store) : store :=
  {| fw := f; heap := heap s |}.
Definition with_heap (h : gmap ptr Z) (s : store) : store :=
  {| fw := fw s; heap := h |}.

(** ** The writer *)

Definition NewFanoutWriter (cfg : FanoutWriterConfig) : store :=
  let off := if negb (ReadFromStart cfg) then len (Buf cfg) else 0 in
  {| fw := {| buf := Buf cfg; c := cfg; off := off; clients := ∅; closed := false |};
     heap := ∅ |}.

Definition NewDefaultFanoutWriter : store :=
  NewFanoutWriter {| Buf := []; Limit := 0; ReadFromStart := false |}.

(** [Write] returns [(n, err)]. *)
Definition fwriter_Write (p : list byte) (s : store)
  : res (store * (Z * option error)) :=
  let f := fw s in
  let blen := len p in
  if blen =? 0 then Ok (s, (0, None))
  else if closed f then Ok (s, (0, Some ErrClosedPipe))
  else if negb (ReadFromStart (c f)) && (Z.of_nat (size (clients f)) =? 0)
  then Ok (s, (blen, None))
  else
    f' ← (if negb (Limit (c f) =? 0) then
            if Limit (c f) >? blen then
              let invalidBytes := len (buf f) + blen - Limit (c f) in
              if invalidBytes >? 0 then
                b ← slice_from (buf f) invalidBytes;
                Ok (set_off (off f + invalidBytes) (set_buf (b ++ p) f))
              else
                Ok (set_buf (buf f ++ p) f)
            else
              let f1 := set_off (off f + len (buf f)) f in
              b ← slice_from p (len p - Limit (c f));
              Ok (set_buf b f1)
          else
            Ok (set_buf (buf f ++ p) f));
    Ok (with_fw f' s, (blen, None)).

Definition fwriter_Close (s : store) : res (store * option error) :=
  Ok (with_fw (set_closed true (fw s)) s, None).

(** The [off] fields of the registered clients, in the order the map
    iteration visits them. *)
Definition client_offs (s : store) : res (list Z) :=
  foldr (λ p acc, l ← acc;
                  match heap s !! p with
                  | Some o => Ok (o :: l)
                  | None => Dangling
                  end)
        (Ok []) (elements (clients (fw s))).

(** The loop of [updateOff]: [init] is [len(f.buf)], [foff] is [f.off]. *)
Definition offJump_loop (foff : Z) (offs : list Z) (init : Z) : Z :=
  foldl (λ offJump coff,
           let offDiff := coff - foff in
           if offDiff <? offJump then offDiff else offJump)
        init offs.

Definition fwriter_updateOff (s : store) : res store :=
  let f := fw s in
  if negb (ReadFromStart (c f)) then
    offs ← client_offs s;
    let offJump := offJump_loop (off f) offs (len (buf f)) in
    b ← slice_from (buf f) offJump;
    Ok (with_fw (set_off (off f + offJump) (set_buf b f)) s)
  else Ok s.

(** [NewReader] allocates a client and registers it. *)
Definition fwriter_NewReader (s : store) : res (store * ptr) :=
  let f := fw s in
  if closed f then Panic NewReaderWhenClosed
  else
    let off0 := off f in
    let off1 := if negb (ReadFromStart (c f)) then off0 + len (buf f) else off0 in
    let r : ptr := fresh (dom (heap s)) in
    Ok ({| fw := set_clients ({[ r ]} ∪ clients f) f;
           heap := <[ r := off1 ]> (heap s) |}, r).

(** ** The readers *)

(** [delete(c.fw.clients, c)] *)
Definition delete_client (r : ptr) (s : store) : store :=
  with_fw (set_clients (clients (fw s) ∖ {[ r ]}) (fw s)) s.

Inductive read_result : Type :=
| ReadReturn (n : Z) (err : option error) (p' : list byte)
| ReadWait.

(** One run of the loop body of [Read]; [p] is the destination slice and
    [p'] in the result its contents when the call returns. *)
Definition client_Read (r : ptr) (p : list byte) (s : store)
  : res (store * read_result) :=
  match heap s !! r with
  | None => Dangling
  | Some coff =>
    let f := fw s in
    let localoff := coff - off f in
    if (localoff >? len (buf f)) || (localoff <? 0) then
      Ok (delete_client r s, ReadReturn 0 (Some ErrFellBehind) p)
    else
      lbuf ← slice_from (buf f) localoff;
      if len lbuf =? 0 then
        if closed f then Ok (s, ReadReturn 0 (Some EOF) p)
        else Ok (s, ReadWait)
      else
        let '(p', ncopy) := copy p lbuf in
        s' ← (if ncopy >? 0
              then fwriter_updateOff (with_heap (<[ r := coff + ncopy ]> (heap s)) s)
              else Ok s);
        Ok (s', ReadReturn ncopy None p')
  end.

Definition client_Close (r : ptr) (s : store) : res (store * option error) :=
  match heap s !! r with
  | None => Dangling
  | Some coff =>
    let f := fw s in
    let s1 := delete_client r s in
    s2 ← (if off f =? coff then fwriter_updateOff s1 else Ok s1);
    Ok (s2, None)
  end.

(** ** Calls and runs *)

Inductive op : Type :=
| OpWrite (p : list byte)
| OpClose
| OpNewReader
| OpRead (r : ptr) (p : list byte)
| OpReaderClose (r : ptr).

Inductive event : Type :=
| EvWrite (n : Z) (err : option error)
| EvClose (err : option error)
| EvNewReader (r : ptr)
| EvRead (r : ptr) (res : read_result)
| EvReaderClose (r : ptr) (err : option error).

Definition step (o : op) (s : store) : res (store * event) :=
  match o with
  | OpWrite p => '(s', (n, e)) ← fwriter_Write p s; Ok (s', EvWrite n e)
  | OpClose => '(s', e) ← fwriter_Close s; Ok (s', EvClose e)
  | OpNewReader => '(s', r) ← fwriter_NewReader s; Ok (s', EvNewReader r)
  | OpRead r p => '(s', x) ← client_Read r p s; Ok (s', EvRead r x)
  | OpReaderClose r => '(s', e) ← client_Close r s; Ok (s', EvReaderClose r e)
  end.

Fixpoint run (ops : list op) (s : store) : res (store * list event) :=
  match ops with
  | [] => Ok (s, [])
  | o :: ops' =>
    '(s1, e) ← step o s;
    '(s2, es) ← run ops' s1;
    Ok (s2, e :: es)
  end.

(** States the constructor can lead to. *)
Definition reachable (cfg : FanoutWriterConfig) (s : store) : Prop :=
  ∃ ops evs, run ops (NewFanoutWriter cfg) = Ok (s, evs).

(** ** Notions the statements are written with *)

(** The offset just past the last byte of the buffer. *)
Definition tail (s : store) : Z := off (fw s) + len (buf (fw s)).

(** The store after [updateOff] dropped [j] bytes. *)
Definition trimmed (j : Z) (s : store) : store :=
  with_fw (set_off (off (fw s) + j)
             (set_buf (drop (Z.to_nat j) (buf (fw s))) (fw s))) s.

(** What [updateOff] drops: [j] is the smaller of [len(f.buf)] and the
    least [c.off - f.off] over the registered clients. *)
Definition min_jump (s : store) (j : Z) : Prop :=
  j ≤ len (buf (fw s)) ∧
  (∀ r o, r ∈ clients (fw s) → heap s !! r = Some o → j ≤ o - off (fw s)) ∧
  (j = len (buf (fw s)) ∨
   ∃ r o, r ∈ clients (fw s) ∧ heap s !! r = Some o ∧ j = o - off (fw s)).

(** Keeping [len(f.buf)] within [Limit] after [p] is appended needs
    [f.off] to move to [f.off + (len(f.buf) + len(p) - Limit)]; the write
    strands a registered reader that is inside the window now and below
    that offset. *)
Definition strands (s : store) (p : list byte) : Prop :=
  ∃ r o, r ∈ clients (fw s) ∧ heap s !! r = Some o ∧
         off (fw s) ≤ o ∧
         o < off (fw s) + (len (buf (fw s)) + len p - Limit (c (fw s))).

(** A write is rejected when it reports an error, takes no byte and leaves
    the store as it was. *)
Definition rejected (s : store) (p : list byte) : Prop :=
  ∃ e, fwriter_Write p s = Ok (s, (0, Some e)).

(** No client, registered or not, is past the end of the buffer. *)
Definition tail_bound (s : store) : Prop :=
  ∀ r o, heap s !! r = Some o → o ≤ tail s.

(** Every offset the store holds lies between 0 and the end of the buffer;
    the differences and sums the code forms from them then lie between
    [- tail s] and [tail s]. *)
Definition offsets_in_range (s : store) : Prop :=
  0 ≤ off (fw s) ∧ ∀ r o, heap s !! r = Some o → 0 ≤ o ≤ tail s.

(** The bytes a call hands to [Write]. *)
Definition written (o : op) : Z :=
  match o with
  | OpWrite p => len p
  | _ => 0
  end.


(** Every registered reader is allocated and inside the window
    [f.off .. f.off + len(f.buf)]. *)
Definition window_inv (s : store) : Prop :=
  ∀ r, r ∈ clients (fw s) →
       ∃ o, heap s !! r = Some o ∧ off (fw s) ≤ o ≤ tail s.

(** The bytes of the buffer from the reader's offset on. *)
Definition unread (s : store) (r : ptr) : list byte :=
  match heap s !! r with
  | Some o => drop (Z.to_nat (o - off (fw s))) (buf (fw s))
  | None => []
  end.

(** The room reader [r] offers in a call, and what a call hands to it. *)
Definition requested (r : ptr) (o : op) : nat :=
  match o with
  | OpRead r' q => if decide (r' = r) then length q else 0%nat
  | _ => 0%nat
  end.

Definition delivered (r : ptr) (e : event) : list byte :=
  match e with
  | EvRead r' (ReadReturn n _ p') =>
      if decide (r' = r) then take (Z.to_nat n) p' else []
  | _ => []
  end.

Fixpoint wanted (r : ptr) (ops : list op) : nat :=
  match ops with
  | [] => 0%nat
  | o :: ops' => (requested r o + wanted r ops')%nat
  end.

Fixpoint received (r : ptr) (evs : list event) : list byte :=
  match evs with
  | [] => []
  | e :: evs' => delivered r e ++ received r evs'
  end.

(** The calls considered after the writer's [Close]: writes, another
    [Close], reads by any allocated client, and [Close] of any allocated
    client but [r].  [NewReader] panics on a closed writer. *)
Definition admissible (r : ptr) (s0 : store) (o : op) : Prop :=
  match o with
  | OpWrite _ | OpClose => True
  | OpNewReader => False
  | OpRead r' _ => is_Some (heap s0 !! r')
  | OpReaderClose r' => is_Some (heap s0 !! r') ∧ r' ≠ r
  end.

(** What holds from the writer's [Close] on, as long as [r] stays open. *)
Definition after_close (r : ptr) (s0 s : store) : Prop :=
  closed (fw s) = true ∧ window_inv s ∧ r ∈ clients (fw s) ∧
  ∀ r', is_Some (heap s0 !! r') → is_Some (heap s !! r').

(** The four ways [Read] leaves its loop body. *)
Inductive read_case (r : ptr) (q : list byte) (s : store)
  : store → read_result → Prop :=
| read_fell_behind coff :
    heap s !! r = Some coff →
    coff < off (fw s) ∨ tail s < coff →
    read_case r q s (delete_client r s) (ReadReturn 0 (Some ErrFellBehind) q)
| read_drained coff :
    heap s !! r = Some coff →
    coff = tail s →
    read_case r q s s
      (if closed (fw s) then ReadReturn 0 (Some EOF) q else ReadWait)
| read_nothing coff :
    heap s !! r = Some coff →
    off (fw s) ≤ coff < tail s →
    q = [] →
    read_case r q s s (ReadReturn 0 None [])
| read_copied coff s' :
    heap s !! r = Some coff →
    off (fw s) ≤ coff < tail s →
    q ≠ [] →
    let lbuf := drop (Z.to_nat (coff - off (fw s))) (buf (fw s)) in
    fwriter_updateOff (with_heap (<[ r := coff + (copy q lbuf).2 ]> (heap s)) s)
    = Ok s' →
    read_case r q s s' (ReadReturn (copy q lbuf).2 None (copy q lbuf).1).

(** ** Concrete configurations and stores *)

(** [bytes from count] is the slice [{from, from+1, ...}] of the tests. *)
Definition byte_of (n : nat) : byte := default Byte.x00 (Byte.of_nat n).
Definition bytes (from count : nat) : list byte := byte_of <$> seq from count.

Definition tail6 : FanoutWriterConfig :=
  {| Buf := []; Limit := 6; ReadFromStart := false |}.
Definition start6 : FanoutWriterConfig :=
  {| Buf := []; Limit := 6; ReadFromStart := true |}.

Definition closed_default : store :=
  with_fw (set_closed true (fw NewDefaultFanoutWriter)) NewDefaultFanoutWriter.

(** The store of [TestLimitReaderFellBehind] from the test file: limit 6,
    one reader registered before two writes of five bytes. *)
Definition stranded_store : store :=
  {| fw := {| buf := bytes 5 6; c := tail6; off := 4;
              clients := {[ 0%nat ]}; closed := false |};
     heap := {[ 0%nat := 0 ]} |}.

(** The store of [TestLimitReaderFellBehind] before its second write. *)
Definition one_reader_five_bytes : store :=
  {| fw := {| buf := bytes 1 5; c := tail6; off := 0;
              clients := {[ 0%nat ]}; closed := false |};
     heap := {[ 0%nat := 0 ]} |}.

(** The store of a rolling window of six bytes: a reader registered after
    the first five bytes, then five more written. *)
Definition outrun_start_store : store :=
  {| fw := {| buf := bytes 5 6; c := start6; off := 4;
              clients := {[ 0%nat ]}; closed := false |};
     heap := {[ 0%nat := 0 ]} |}.


(** The store of [TestLimitReaderFellBehind] once the writer is closed. *)
Definition stranded_closed : store :=
  with_fw (set_closed true (fw stranded_store)) stranded_store.

(** One reader, five bytes written, writer closed. *)
Definition five_then_closed : store :=
  {| fw := {| buf := bytes 1 5; c := Build_FanoutWriterConfig [] 0 false;
              off := 0; clients := {[ 0%nat ]}; closed := true |};
     heap := {[ 0%nat := 0 ]} |}.

(** A destination slice, [make([]byte, n, n)]. *)
Definition dst (n : nat) : list byte := replicate n Byte.x00.

(** What the calls [ops] return on a fresh writer. *)
Definition events (ops : list op) (cfg : FanoutWriterConfig)
  : res (list event) :=
  '(_, evs) ← run ops (NewFanoutWriter cfg); Ok evs.

(** ** Further notions: what a write keeps, what a run accepts *)

(** The last [n] bytes of [l], all of [l] when it has fewer. *)
Definition last_bytes (n : Z) (l : list byte) : list byte :=
  drop (Z.to_nat (len l - n)) l.

(** The bytes a call to [Write] was reported to have taken without error. *)
Definition taken (o : op) (e : event) : list byte :=
  match o, e with
  | OpWrite p, EvWrite _ None => p
  | _, _ => []
  end.

Fixpoint accepted (ops : list op) (evs : list event) : list byte :=
  match ops, evs with
  | o :: ops', e :: evs' => taken o e ++ accepted ops' evs'
  | _, _ => []
  end.

(** With nobody registered the buffer is empty, and otherwise some
    registered reader sits at [f.off]. *)
Definition base_held (s : store) : Prop :=
  ((∀ r, r ∉ clients (fw s)) → buf (fw s) = []) ∧
  (∀ r, r ∈ clients (fw s) →
        ∃ r0, r0 ∈ clients (fw s) ∧ heap s !! r0 = Some (off (fw s))).

(** From [s] to [s']: same configuration, a closed writer still closed,
    [f.off] and the end of the buffer not moved back, every client still
    allocated and not moved back. *)
Definition advances (s s' : store) : Prop :=
  c (fw s') = c (fw s) ∧
  (closed (fw s) = true → closed (fw s') = true) ∧
  off (fw s) ≤ off (fw s') ∧
  tail s ≤ tail s' ∧
  ∀ r o, heap s !! r = Some o → ∃ o', heap s' !! r = Some o' ∧ o ≤ o'.

(** The bytes handed to [Write] in the calls [ops]. *)
Fixpoint total_written (ops : list op) : Z :=
  match ops with
  | [] => 0
  | o :: ops' => written o + total_written ops'
  end.

(** Two readers on an unbounded writer, the first one two bytes into the
    five that were written. *)
Definition two_readers : store :=
  {| fw := {| buf := bytes 1 5; c := Build_FanoutWriterConfig [] 0 false;
              off := 0; clients := {[ 0%nat; 1%nat ]}; closed := false |};
     heap := {[ 0%nat := 2; 1%nat := 0 ]} |}.

(** One reader that has read everything there is, limit 6. *)
Definition drained6 : store :=
  {| fw := {| buf := bytes 1 5; c := tail6; off := 0;
              clients := {[ 0%nat ]}; closed := false |};
     heap := {[ 0%nat := 5 ]} |}.

(** ** The comparisons of the code as propositions *)

Lemma gtb_true (a b : Z) : b < a → (a >? b) = true.
Proof. intros H. rewrite Z.gtb_ltb. by apply Z.ltb_lt. Qed.

Lemma gtb_false (a b : Z) : a ≤ b → (a >? b) = false.
Proof. intros H. rewrite Z.gtb_ltb. by apply Z.ltb_ge. Qed.

Lemma ltb_true (a b : Z) : a < b → (a <? b) = true.
Proof. apply Z.ltb_lt. Qed.

Lemma ltb_false (a b : Z) : b ≤ a → (a <? b) = false.
Proof. apply Z.ltb_ge. Qed.

Lemma eqb_false (a b : Z) : a ≠ b → (a =? b) = false.
Proof. apply Z.eqb_neq. Qed.

Lemma in_window_test (localoff n : Z) :
  0 ≤ localoff ≤ n → ((localoff >? n) || (localoff <? 0)) = false.
Proof. intros [H0 H1]. by rewrite gtb_false, ltb_false. Qed.

Lemma out_of_window_test (localoff n : Z) :
  localoff < 0 ∨ n < localoff → ((localoff >? n) || (localoff <? 0)) = true.
Proof.
  intros [H | H].
  - rewrite (ltb_true _ _ H). apply orb_true_r.
  - by rewrite (gtb_true _ _ H).
Qed.

(** ** Small facts about slices *)

Lemma len_nonneg {A : Type} (l : list A) : 0 ≤ len l.
Proof. unfold len. lia. Qed.

Lemma len_app {A : Type} (l k : list A) : len (l ++ k) = len l + len k.
Proof. unfold len. rewrite length_app. lia. Qed.

Lemma len_nil_inv {A : Type} (l : list A) : len l = 0 → l = [].
Proof. destruct l; [done | unfold len; simpl; lia]. Qed.

Lemma len_drop {A : Type} (l : list A) (n : Z) :
  0 ≤ n ≤ len l → len (drop (Z.to_nat n) l) = len l - n.
Proof. unfold len. rewrite length_drop. lia. Qed.

Lemma slice_from_ok {A : Type} (l : list A) (low : Z) :
  0 ≤ low ≤ len l → slice_from l low = Ok (drop (Z.to_nat low) l).
Proof.
  intros [H0 H1]. unfold slice_from.
  apply Z.leb_le in H0, H1. by rewrite H0, H1.
Qed.

Lemma slice_from_panic {A : Type} (l : list A) (low : Z) :
  low < 0 ∨ len l < low → slice_from l low = Panic (SliceBounds low (len l)).
Proof.
  intros H. unfold slice_from.
  destruct (0 <=? low) eqn:E0; [| done].
  destruct (low <=? len l) eqn:E1; [| done].
  apply Z.leb_le in E0, E1. lia.
Qed.

Lemma slice_from_inv {A : Type} (l k : list A) (low : Z) :
  slice_from l low = Ok k → 0 ≤ low ≤ len l ∧ k = drop (Z.to_nat low) l.
Proof.
  unfold slice_from.
  destruct (0 <=? low) eqn:E0; [| done].
  destruct (low <=? len l) eqn:E1; [| done].
  apply Z.leb_le in E0, E1. simpl. intros [= <-]. done.
Qed.

(** ** The loop of [updateOff] computes a minimum *)

Lemma offJump_loop_le_init (foff : Z) (offs : list Z) (init : Z) :
  offJump_loop foff offs init ≤ init.
Proof.
  revert init. induction offs as [| o offs IH]; intros init; simpl; [lia |].
  destruct (o - foff <? init) eqn:E.
  - apply Z.ltb_lt in E. specialize (IH (o - foff)). lia.
  - apply IH.
Qed.

Lemma offJump_loop_le_elem (foff : Z) (offs : list Z) (init o : Z) :
  o ∈ offs → offJump_loop foff offs init ≤ o - foff.
Proof.
  revert init. induction offs as [| o' offs IH]; intros init Hin.
  - by apply elem_of_nil in Hin.
  - apply elem_of_cons in Hin as [-> | Hin]; simpl.
    + destruct (o' - foff <? init) eqn:E.
      * apply offJump_loop_le_init.
      * apply Z.ltb_ge in E.
        pose proof (offJump_loop_le_init foff offs init). lia.
    + by apply IH.
Qed.

Lemma offJump_loop_attained (foff : Z) (offs : list Z) (init : Z) :
  offJump_loop foff offs init = init ∨
  ∃ o, o ∈ offs ∧ offJump_loop foff offs init = o - foff.
Proof.
  revert init. induction offs as [| o offs IH]; intros init; simpl; [by left |].
  destruct (o - foff <? init) eqn:E.
  - destruct (IH (o - foff)) as [H | (o' & Hin & H)].
    + right. exists o. split; [apply list_elem_of_here | done].
    + right. exists o'. split; [by apply list_elem_of_further | done].
  - destruct (IH init) as [H | (o' & Hin & H)].
    + by left.
    + right. exists o'. split; [by apply list_elem_of_further | done].
Qed.

Lemma offJump_loop_lower (foff : Z) (offs : list Z) (init m : Z) :
  m ≤ init → (∀ o, o ∈ offs → m ≤ o - foff) →
  m ≤ offJump_loop foff offs init.
Proof.
  intros Hi Ho.
  destruct (offJump_loop_attained foff offs init) as [-> | (o & Hin & ->)];
    [done | by apply Ho].
Qed.

(** Go leaves the iteration order of a map open; the loop does not depend
    on it. *)
Lemma offJump_loop_order (foff : Z) (offs offs' : list Z) (init : Z) :
  offs ≡ₚ offs' →
  offJump_loop foff offs init = offJump_loop foff offs' init.
Proof.
  intros Hp. apply Z.le_antisymm.
  - apply offJump_loop_lower; [apply offJump_loop_le_init |].
    intros o Hin. apply offJump_loop_le_elem. by rewrite Hp.
  - apply offJump_loop_lower; [apply offJump_loop_le_init |].
    intros o Hin. apply offJump_loop_le_elem. by rewrite <- Hp.
Qed.

Lemma client_offs_Forall2 (s : store) (offs : list Z) :
  client_offs s = Ok offs ↔
  Forall2 (λ r o, heap s !! r = Some o) (elements (clients (fw s))) offs.
Proof.
  unfold client_offs. revert offs.
  induction (elements (clients (fw s))) as [| r rs IH]; intros offs; simpl.
  - split.
    + intros [= <-]. constructor.
    + intros H. by apply Forall2_nil_inv_l in H as ->.
  - split.
    + destruct (foldr _ _ rs) as [l | |] eqn:E; simpl; try done.
      destruct (heap s !! r) as [o |] eqn:Er; [| done].
      intros [= <-]. constructor; [done | by apply IH].
    + intros H. apply Forall2_cons_inv_l in H as (o & l & Hr & Hl & ->).
      apply IH in Hl. rewrite Hl. simpl. by rewrite Hr.
Qed.

Lemma client_offs_total (s : store) :
  (∀ r, r ∈ clients (fw s) → is_Some (heap s !! r)) →
  ∃ offs, client_offs s = Ok offs.
Proof.
  intros H.
  assert (Hl : ∀ r, r ∈ elements (clients (fw s)) → is_Some (heap s !! r)).
  { intros r Hr. apply H. by apply elem_of_elements. }
  unfold client_offs. clear H.
  induction (elements (clients (fw s))) as [| r rs IH]; simpl; [by eexists |].
  destruct IH as [l ->].
  { intros r' Hr'. apply Hl. by apply list_elem_of_further. }
  destruct (Hl r) as [o ->]; [apply list_elem_of_here |].
  by eexists.
Qed.

Lemma client_offs_elem (s : store) (offs : list Z) (o : Z) :
  client_offs s = Ok offs →
  o ∈ offs ↔ ∃ r, r ∈ clients (fw s) ∧ heap s !! r = Some o.
Proof.
  intros H. apply client_offs_Forall2 in H. split.
  - intros Hin. apply list_elem_of_lookup in Hin as [i Hi].
    destruct (Forall2_lookup_r _ _ _ _ _ H Hi) as (r & Hr & Hro).
    exists r. split; [| done].
    apply elem_of_elements. apply list_elem_of_lookup. by exists i.
  - intros (r & Hr & Hro).
    apply elem_of_elements, list_elem_of_lookup in Hr as [i Hi].
    destruct (Forall2_lookup_l _ _ _ _ _ H Hi) as (o' & Ho' & Hro').
    assert (o' = o) as -> by congruence.
    apply list_elem_of_lookup. by exists i.
Qed.

Lemma min_jump_unique (s : store) (j j' : Z) :
  min_jump s j → min_jump s j' → j = j'.
Proof.
  intros (Hl & Hle & Hat) (Hl' & Hle' & Hat').
  apply Z.le_antisymm.
  - destruct Hat' as [-> | (r & o & Hr & Ho & ->)]; [done | by eapply Hle].
  - destruct Hat as [-> | (r & o & Hr & Ho & ->)]; [done | by eapply Hle'].
Qed.

Lemma offJump_loop_min_jump (s : store) (offs : list Z) :
  client_offs s = Ok offs →
  min_jump s (offJump_loop (off (fw s)) offs (len (buf (fw s)))).
Proof.
  intros H. split; [apply offJump_loop_le_init |]. split.
  - intros r o Hr Ho. apply offJump_loop_le_elem.
    apply (client_offs_elem s offs o H). eauto.
  - destruct (offJump_loop_attained (off (fw s)) offs (len (buf (fw s))))
      as [E | (o & Hin & E)]; [by left |].
    right. apply (client_offs_elem s offs o H) in Hin as (r & Hr & Ho).
    by exists r, o.
Qed.

Lemma updateOff_tail (s : store) :
  ReadFromStart (c (fw s)) = false →
  (∀ r, r ∈ clients (fw s) → ∃ o, heap s !! r = Some o ∧ off (fw s) ≤ o) →
  ∃ j, fwriter_updateOff s = Ok (trimmed j s) ∧ 0 ≤ j ∧ min_jump s j.
Proof.
  intros Hr Hcl. unfold fwriter_updateOff. rewrite Hr. simpl.
  destruct (client_offs_total s) as [offs Hoffs].
  { intros r Hin. destruct (Hcl r Hin) as (o & -> & _). by eexists. }
  rewrite Hoffs. simpl.
  pose proof (offJump_loop_min_jump s offs Hoffs) as Hmin.
  set (j := offJump_loop (off (fw s)) offs (len (buf (fw s)))) in *.
  assert (0 ≤ j) as Hj.
  { apply offJump_loop_lower; [apply len_nonneg |].
    intros o Hin. apply (client_offs_elem s offs o Hoffs) in Hin as (r & Hin & Ho).
    destruct (Hcl r Hin) as (o' & Ho' & Hle). simplify_eq. lia. }
  exists j. split; [| done].
  rewrite slice_from_ok; [done |]. destruct Hmin as [? _]. lia.
Qed.

Lemma updateOff_panics (s : store) (r : ptr) (o : Z) :
  ReadFromStart (c (fw s)) = false →
  (∀ r, r ∈ clients (fw s) → is_Some (heap s !! r)) →
  r ∈ clients (fw s) → heap s !! r = Some o → o < off (fw s) →
  ∃ j, j < 0 ∧ fwriter_updateOff s = Panic (SliceBounds j (len (buf (fw s)))).
Proof.
  intros Hr Hcl Hin Ho Hlt. unfold fwriter_updateOff. rewrite Hr. simpl.
  destruct (client_offs_total s Hcl) as [offs Hoffs].
  rewrite Hoffs. simpl.
  destruct (offJump_loop_min_jump s offs Hoffs) as (_ & Hle & _).
  specialize (Hle r o Hin Ho).
  eexists. split; [| rewrite slice_from_panic; [reflexivity | left; lia]]. lia.
Qed.

Lemma updateOff_start (s : store) :
  ReadFromStart (c (fw s)) = true → fwriter_updateOff s = Ok s.
Proof. intros Hr. unfold fwriter_updateOff. by rewrite Hr. Qed.

(** ** Writing nothing, writing after close, writing to nobody *)

(** C10: a write of the empty slice returns [(0, nil)] and leaves the store
    as it is, in every store; a closed writer is no exception, the length
    test comes before the [closed] test. *)
Theorem Write_empty_is_noop (s : store) :
  fwriter_Write [] s = Ok (s, (0, None)).
Proof. reflexivity. Qed.

Example Write_empty_after_Close :
  fwriter_Write [] closed_default = Ok (closed_default, (0, None)).
Proof. reflexivity. Qed.

Lemma len_pos_of_ne_nil {A : Type} (l : list A) : l ≠ [] → (len l =? 0) = false.
Proof.
  intros H. apply Z.eqb_neq. intros E. by apply H, len_nil_inv.
Qed.

(** C7: a non-empty write to a closed writer returns [(0, io.ErrClosedPipe)]
    and the store (buffer, base offset, reader offsets, registry) is the one
    it was given. *)
Theorem Write_after_Close (p : list byte) (s : store) :
  p ≠ [] →
  closed (fw s) = true →
  fwriter_Write p s = Ok (s, (0, Some ErrClosedPipe)).
Proof.
  intros Hp Hc. unfold fwriter_Write.
  rewrite (len_pos_of_ne_nil p Hp), Hc. reflexivity.
Qed.

Lemma Write_after_Close_witness :
  bytes 1 5 ≠ [] ∧ closed (fw closed_default) = true ∧
  fwriter_Write (bytes 1 5) closed_default
  = Ok (closed_default, (0, Some ErrClosedPipe)).
Proof.
  split; [discriminate |]. split; [reflexivity |].
  apply (Write_after_Close (bytes 1 5) closed_default);
    [discriminate | reflexivity].
Defined.

(** C9: with [ReadFromStart] off, the writer open and nobody registered,
    [Write] reports the whole input as written and keeps the store as it is,
    whatever [Limit] is. *)
Theorem Write_without_readers (p : list byte) (s : store) :
  ReadFromStart (c (fw s)) = false →
  closed (fw s) = false →
  clients (fw s) = ∅ →
  fwriter_Write p s = Ok (s, (len p, None)).
Proof.
  intros Hr Hc He. unfold fwriter_Write. rewrite Hr, Hc, He.
  destruct (len p =? 0) eqn:E.
  - apply Z.eqb_eq in E. by rewrite E.
  - reflexivity.
Qed.

Lemma Write_without_readers_witness :
  fwriter_Write (bytes 1 10) (NewFanoutWriter tail6)
  = Ok (NewFanoutWriter tail6, (10, None)).
Proof.
  apply (Write_without_readers (bytes 1 10) (NewFanoutWriter tail6));
    reflexivity.
Defined.

(** ** Registration *)

(** C8: on an open writer [NewReader] returns a client that was not
    allocated before, whose offset is [f.off] under [ReadFromStart] and
    [f.off + len(f.buf)] otherwise, and that is registered; the buffer, the
    base offset, the closed flag, the configuration, the other clients'
    offsets and their registration are as before. *)
Theorem NewReader_spec (s : store) :
  closed (fw s) = false →
  ∃ (r : ptr) (s' : store),
    fwriter_NewReader s = Ok (s', r) ∧
    heap s !! r = None ∧
    heap s' !! r = Some (if ReadFromStart (c (fw s)) then off (fw s)
                         else off (fw s) + len (buf (fw s))) ∧
    r ∈ clients (fw s') ∧
    (∀ r' : ptr, r' ≠ r →
       heap s' !! r' = heap s !! r' ∧
       (r' ∈ clients (fw s') ↔ r' ∈ clients (fw s))) ∧
    buf (fw s') = buf (fw s) ∧
    off (fw s') = off (fw s) ∧
    closed (fw s') = closed (fw s) ∧
    c (fw s') = c (fw s).
Proof.
  intros Hc. unfold fwriter_NewReader. rewrite Hc.
  set (r := fresh (dom (heap s))).
  assert (Hfresh : heap s !! r = None).
  { apply not_elem_of_dom. apply is_fresh. }
  eexists r, _. split; [reflexivity |]. simpl.
  split; [exact Hfresh |].
  split; [rewrite lookup_insert_eq; by destruct (ReadFromStart _) |].
  split; [apply elem_of_union_l; by apply elem_of_singleton |].
  split; [| done].
  intros r' Hne. split; [by rewrite lookup_insert_ne |].
  rewrite elem_of_union, elem_of_singleton.
  split; [intros [E | Hin]; [by destruct Hne | done] | by right].
Qed.

Lemma NewReader_spec_witness :
  closed (fw (NewFanoutWriter tail6)) = false ∧
  ∃ (r : ptr) (s' : store),
    fwriter_NewReader (NewFanoutWriter tail6) = Ok (s', r) ∧
    heap s' !! r = Some 0 ∧ r ∈ clients (fw s').
Proof.
  split; [reflexivity |].
  destruct (NewReader_spec (NewFanoutWriter tail6) eq_refl)
    as (r & s' & Hnew & _ & Ho & Hr & _).
  exists r, s'. repeat split; assumption.
Defined.

(** ** When the readers trim *)

Lemma Read_runs_updateOff (s : store) (r : ptr) (p : list byte) (coff : Z) :
  heap s !! r = Some coff →
  0 ≤ coff - off (fw s) ≤ len (buf (fw s)) →
  let lbuf := drop (Z.to_nat (coff - off (fw s))) (buf (fw s)) in
  0 < (copy p lbuf).2 →
  client_Read r p s =
    s' ← fwriter_updateOff
           (with_heap (<[ r := coff + (copy p lbuf).2 ]> (heap s)) s);
    Ok (s', ReadReturn (copy p lbuf).2 None (copy p lbuf).1).
Proof.
  intros Hr Hwin lbuf Hn. unfold client_Read. rewrite Hr.
  rewrite in_window_test by done.
  rewrite slice_from_ok by done. simpl. fold lbuf.
  rewrite eqb_false by (unfold copy in Hn; simpl in Hn; lia).
  unfold copy in *. simpl in *. by rewrite gtb_true.
Qed.

Lemma Close_runs_updateOff (s : store) (r : ptr) (coff : Z) :
  heap s !! r = Some coff →
  (coff = off (fw s) →
   client_Close r s =
     s' ← fwriter_updateOff (delete_client r s); Ok (s', None)) ∧
  (coff ≠ off (fw s) →
   client_Close r s = Ok (delete_client r s, None)).
Proof.
  intros Hr. split; intros Ho; unfold client_Close; rewrite Hr.
  - subst coff. by rewrite Z.eqb_refl.
  - by rewrite eqb_false.
Qed.

(** ** Trimming *)

Lemma stranded_store_reachable : reachable tail6 stranded_store.
Proof.
  exists [OpNewReader; OpWrite (bytes 1 5); OpWrite (bytes 6 5)].
  eexists. vm_compute. reflexivity.
Qed.

(** C5, as the code has it: [Read] runs [updateOff] whenever it copied at
    least one byte; the reader's [Close] runs it when the closing client's
    offset equals [f.off] and only deregisters otherwise.  With
    [ReadFromStart] off and no registered client below [f.off], [updateOff]
    drops [j] bytes from the front of the buffer and adds [j] to [f.off],
    where [j] is the smaller of [len(f.buf)] and the least [c.off - f.off]
    over the registered clients; with no client registered that is the
    whole buffer.  With [ReadFromStart] on it changes nothing. *)
Theorem updateOff_spec (s : store) :
  (∀ (r : ptr) (p : list byte) (coff : Z),
     heap s !! r = Some coff →
     0 ≤ coff - off (fw s) ≤ len (buf (fw s)) →
     let lbuf := drop (Z.to_nat (coff - off (fw s))) (buf (fw s)) in
     0 < (copy p lbuf).2 →
     client_Read r p s =
       s' ← fwriter_updateOff
              (with_heap (<[ r := coff + (copy p lbuf).2 ]> (heap s)) s);
       Ok (s', ReadReturn (copy p lbuf).2 None (copy p lbuf).1)) ∧
  (∀ (r : ptr) (coff : Z),
     heap s !! r = Some coff →
     (coff = off (fw s) →
      client_Close r s =
        s' ← fwriter_updateOff (delete_client r s); Ok (s', None)) ∧
     (coff ≠ off (fw s) →
      client_Close r s = Ok (delete_client r s, None))) ∧
  (ReadFromStart (c (fw s)) = false →
   (∀ r, r ∈ clients (fw s) → ∃ o, heap s !! r = Some o ∧ off (fw s) ≤ o) →
   ∃ j, fwriter_updateOff s = Ok (trimmed j s) ∧ 0 ≤ j ∧ min_jump s j) ∧
  (ReadFromStart (c (fw s)) = false →
   clients (fw s) = ∅ →
   fwriter_updateOff s = Ok (trimmed (len (buf (fw s))) s) ∧
   buf (fw (trimmed (len (buf (fw s))) s)) = []) ∧
  (ReadFromStart (c (fw s)) = true → fwriter_updateOff s = Ok s).
Proof.
  split; [| split; [| split; [| split]]].
  - intros r p coff. apply Read_runs_updateOff.
  - intros r coff. apply Close_runs_updateOff.
  - apply updateOff_tail.
  - intros Hrfs He. split.
    + destruct (updateOff_tail s Hrfs) as (j & Hj & Hj0 & Hjl & Hjle & Hjat).
      { intros r Hr. rewrite He in Hr. by apply not_elem_of_empty in Hr. }
      destruct Hjat as [-> | (r & o & Hr & _)]; [done |].
      rewrite He in Hr. by apply not_elem_of_empty in Hr.
    + simpl. apply drop_ge. unfold len. lia.
  - apply updateOff_start.
Qed.

Lemma updateOff_spec_witness :
  ReadFromStart (c (fw (delete_client 0%nat stranded_store))) = false ∧
  clients (fw (delete_client 0%nat stranded_store)) = ∅ ∧
  fwriter_updateOff (delete_client 0%nat stranded_store)
  = Ok (trimmed 6 (delete_client 0%nat stranded_store)).
Proof.
  assert (Hr : ReadFromStart (c (fw (delete_client 0%nat stranded_store))) = false)
    by reflexivity.
  assert (He : clients (fw (delete_client 0%nat stranded_store)) = ∅)
    by (by vm_compute).
  split; [exact Hr |]. split; [exact He |].
  destruct (updateOff_spec (delete_client 0%nat stranded_store))
    as (_ & _ & _ & H & _).
  exact (proj1 (H Hr He)).
Defined.

(** The reader's [Close] does not always trim: the reader that fell behind
    closes, nobody is registered any more, and the six bytes stay in the
    buffer, which [updateOff] would have released. *)
Lemma Close_skips_updateOff :
  reachable tail6 stranded_store ∧
  client_Close 0%nat stranded_store = Ok (delete_client 0%nat stranded_store, None) ∧
  clients (fw (delete_client 0%nat stranded_store)) = ∅ ∧
  buf (fw (delete_client 0%nat stranded_store)) = bytes 5 6 ∧
  fwriter_updateOff (delete_client 0%nat stranded_store)
  = Ok (trimmed 6 (delete_client 0%nat stranded_store)) ∧
  buf (fw (trimmed 6 (delete_client 0%nat stranded_store))) = [] ∧
  ¬ (∀ r s s', client_Close r s = Ok (s', None) →
               fwriter_updateOff (delete_client r s) = Ok s').
Proof.
  split; [apply stranded_store_reachable |].
  assert (Hc : client_Close 0%nat stranded_store
               = Ok (delete_client 0%nat stranded_store, None)) by reflexivity.
  assert (Hu : fwriter_updateOff (delete_client 0%nat stranded_store)
               = Ok (trimmed 6 (delete_client 0%nat stranded_store)))
    by (by vm_compute).
  split; [exact Hc |]. split; [by vm_compute |]. split; [reflexivity |].
  split; [exact Hu |]. split; [reflexivity |].
  intros H. specialize (H _ _ _ Hc). rewrite Hu in H.
  injection H as Hbuf _. discriminate Hbuf.
Qed.

(** ** Writes under a limit *)

Lemma registered_size (s : store) (r : ptr) :
  r ∈ clients (fw s) → (Z.of_nat (size (clients (fw s))) =? 0) = false.
Proof.
  intros Hin. apply eqb_false. intros E.
  assert (size (clients (fw s)) = 0%nat) as E0 by lia.
  apply size_empty_iff in E0. apply E0 in Hin.
  by apply not_elem_of_empty in Hin.
Qed.

Lemma one_reader_five_bytes_reachable : reachable tail6 one_reader_five_bytes.
Proof.
  exists [OpNewReader; OpWrite (bytes 1 5)]. eexists. vm_compute. reflexivity.
Qed.

Lemma one_reader_five_bytes_strands :
  strands one_reader_five_bytes (bytes 6 5).
Proof.
  exists 0%nat, 0. split; [by vm_compute |].
  split; [reflexivity |]. vm_compute. split; [discriminate | reflexivity].
Qed.

(** C1 does not hold: with limit 6 and ReadFromStart off, the second write
    of five bytes moves [f.off] from 0 to 4, past the registered reader at
    offset 0, and is accepted in full. *)
Lemma Write_strands_not_rejected :
  reachable tail6 one_reader_five_bytes ∧
  Limit (c (fw one_reader_five_bytes)) = 6 ∧
  ReadFromStart (c (fw one_reader_five_bytes)) = false ∧
  strands one_reader_five_bytes (bytes 6 5) ∧
  fwriter_Write (bytes 6 5) one_reader_five_bytes
  = Ok (stranded_store, (5, None)) ∧
  off (fw stranded_store) = 4 ∧
  heap stranded_store !! 0%nat = Some 0 ∧
  ¬ rejected one_reader_five_bytes (bytes 6 5).
Proof.
  split; [apply one_reader_five_bytes_reachable |].
  split; [reflexivity |]. split; [reflexivity |].
  split; [apply one_reader_five_bytes_strands |].
  assert (Hw : fwriter_Write (bytes 6 5) one_reader_five_bytes
               = Ok (stranded_store, (5, None))) by (by vm_compute).
  split; [exact Hw |]. split; [reflexivity |]. split; [reflexivity |].
  intros [e He]. rewrite Hw in He. discriminate He.
Qed.

(** C1, as the code has it: with a limit, ReadFromStart off and the writer
    open, a non-empty write shorter than the limit that strands a registered
    reader is accepted in full.  [Write] returns [(len(p), nil)], drops the
    [len(f.buf) + len(p) - Limit] oldest bytes, appends [p] and moves
    [f.off] by the number of bytes dropped; no reader offset and no
    registration changes, and every registered reader left below the new
    [f.off] gets [ErrFellBehind] from its next [Read]. *)
Theorem Write_strands_accepted (s : store) (p : list byte) :
  closed (fw s) = false →
  ReadFromStart (c (fw s)) = false →
  0 < Limit (c (fw s)) →
  p ≠ [] →
  len p < Limit (c (fw s)) →
  strands s p →
  let invalidBytes := len (buf (fw s)) + len p - Limit (c (fw s)) in
  let s' := with_fw (set_off (off (fw s) + invalidBytes)
                       (set_buf (drop (Z.to_nat invalidBytes) (buf (fw s)) ++ p)
                          (fw s))) s in
  0 < invalidBytes ∧
  fwriter_Write p s = Ok (s', (len p, None)) ∧
  heap s' = heap s ∧
  clients (fw s') = clients (fw s) ∧
  ∀ r o q, heap s !! r = Some o → o < off (fw s) + invalidBytes →
           client_Read r q s'
           = Ok (delete_client r s', ReadReturn 0 (Some ErrFellBehind) q).
Proof.
  intros Hc Hr Hlim Hp Hlen (r & o & Hin & Ho & Hlo & Hhi) invalidBytes s'.
  assert (0 < invalidBytes) as Hinv by (unfold invalidBytes; lia).
  split; [exact Hinv |]. split; [| split; [done | split; [done |]]].
  - unfold fwriter_Write.
    rewrite (len_pos_of_ne_nil p Hp), Hc, Hr, (registered_size s r Hin).
    simpl. rewrite eqb_false by lia. simpl.
    rewrite gtb_true by lia. fold invalidBytes.
    rewrite gtb_true by lia.
    rewrite slice_from_ok; [done |].
    pose proof (len_nonneg p). unfold invalidBytes. lia.
  - intros r' o' q Ho' Hlt. unfold client_Read. simpl. rewrite Ho'.
    rewrite out_of_window_test; [done |]. left. lia.
Qed.

Lemma Write_strands_accepted_witness :
  closed (fw one_reader_five_bytes) = false ∧
  ReadFromStart (c (fw one_reader_five_bytes)) = false ∧
  0 < Limit (c (fw one_reader_five_bytes)) ∧
  bytes 6 5 ≠ [] ∧
  len (bytes 6 5) < Limit (c (fw one_reader_five_bytes)) ∧
  strands one_reader_five_bytes (bytes 6 5) ∧
  fwriter_Write (bytes 6 5) one_reader_five_bytes
  = Ok (stranded_store, (5, None)).
Proof.
  split; [reflexivity |]. split; [reflexivity |]. split; [reflexivity |].
  split; [discriminate |]. split; [reflexivity |].
  split; [apply one_reader_five_bytes_strands |].
  exact (proj1 (proj2
    (Write_strands_accepted one_reader_five_bytes (bytes 6 5)
       eq_refl eq_refl eq_refl
       (λ H : bytes 6 5 = [], eq_ind (bytes 6 5)
          (λ l, match l with [] => False | _ :: _ => True end) I [] H)
       eq_refl one_reader_five_bytes_strands))).
Defined.

(** ** Falling behind *)

(** "More than [Limit] bytes behind the end of the buffer" is "below
    [f.off]" as soon as the buffer holds no more than [Limit] bytes. *)
Lemma more_than_limit_behind (s : store) (o : Z) :
  len (buf (fw s)) ≤ Limit (c (fw s)) →
  o + Limit (c (fw s)) < tail s → o < off (fw s).
Proof. unfold tail. lia. Qed.

Lemma Read_fell_behind (s : store) (r : ptr) (o : Z) (q : list byte) :
  heap s !! r = Some o →
  o < off (fw s) ∨ off (fw s) + len (buf (fw s)) < o →
  client_Read r q s = Ok (delete_client r s, ReadReturn 0 (Some ErrFellBehind) q).
Proof.
  intros Ho Hout. unfold client_Read. rewrite Ho.
  rewrite out_of_window_test; [done | lia].
Qed.

Lemma Write_start_mode_total (s : store) (p : list byte) :
  ReadFromStart (c (fw s)) = true →
  0 < Limit (c (fw s)) →
  closed (fw s) = false →
  ∃ f', fwriter_Write p s = Ok (with_fw f' s, (len p, None)) ∧
        clients f' = clients (fw s) ∧ closed f' = false.
Proof.
  intros Hr Hlim Hc. unfold fwriter_Write. rewrite Hc, Hr. simpl.
  destruct (len p =? 0) eqn:E.
  - apply Z.eqb_eq in E. rewrite E. exists (fw s). by destruct s.
  - apply Z.eqb_neq in E. rewrite eqb_false by lia. simpl.
    destruct (Limit (c (fw s)) >? len p) eqn:El.
    + destruct (len (buf (fw s)) + len p - Limit (c (fw s)) >? 0) eqn:Ei.
      * rewrite Z.gtb_ltb in El, Ei. apply Z.ltb_lt in El, Ei.
        rewrite slice_from_ok by lia. by eexists.
      * by eexists.
    + rewrite Z.gtb_ltb in El. apply Z.ltb_ge in El.
      rewrite slice_from_ok by lia. by eexists.
Qed.

Lemma outrun_start_store_reachable : reachable start6 outrun_start_store.
Proof.
  exists [OpWrite (bytes 1 5); OpNewReader; OpWrite (bytes 6 5)].
  eexists. vm_compute. reflexivity.
Qed.

(** C4 does not hold: with limit 6 and ReadFromStart on, the reader at
    offset 0 that the second write left below [f.off = 4] gets
    [ErrFellBehind] from [Read] and is deregistered. *)
Lemma Read_start_mode_fell_behind :
  reachable start6 outrun_start_store ∧
  ReadFromStart (c (fw outrun_start_store)) = true ∧
  Limit (c (fw outrun_start_store)) = 6 ∧
  heap outrun_start_store !! 0%nat = Some 0 ∧
  off (fw outrun_start_store) = 4 ∧
  client_Read 0%nat (replicate 10 Byte.x00) outrun_start_store
  = Ok (delete_client 0%nat outrun_start_store,
        ReadReturn 0 (Some ErrFellBehind) (replicate 10 Byte.x00)) ∧
  ¬ (∀ s r o q s' n e q',
       ReadFromStart (c (fw s)) = true → 0 < Limit (c (fw s)) →
       heap s !! r = Some o → o < off (fw s) →
       client_Read r q s = Ok (s', ReadReturn n e q') →
       e ≠ Some ErrFellBehind).
Proof.
  split; [apply outrun_start_store_reachable |].
  split; [reflexivity |]. split; [reflexivity |]. split; [reflexivity |].
  split; [reflexivity |].
  assert (Hread : client_Read 0%nat (replicate 10 Byte.x00) outrun_start_store
                  = Ok (delete_client 0%nat outrun_start_store,
                        ReadReturn 0 (Some ErrFellBehind) (replicate 10 Byte.x00)))
    by reflexivity.
  split; [exact Hread |].
  intros H.
  by apply (H outrun_start_store 0%nat 0 _ _ _ _ _
              eq_refl eq_refl eq_refl eq_refl Hread).
Qed.

(** C4, as the code has it: the test for falling behind in [Read] does not
    look at the mode.  With a limit and ReadFromStart on, a write to the
    open writer always succeeds in full and changes no reader, so the
    trimming it does goes unreported to the writer; a reader whose offset
    is below [f.off] gets [(0, ErrFellBehind)] from its next [Read], which
    also deregisters it and leaves everything else as it was. *)
Theorem Read_start_mode_behind (s : store) :
  ReadFromStart (c (fw s)) = true →
  0 < Limit (c (fw s)) →
  (closed (fw s) = false →
   ∀ p, ∃ f', fwriter_Write p s = Ok (with_fw f' s, (len p, None)) ∧
              clients f' = clients (fw s)) ∧
  (∀ r o q, heap s !! r = Some o → o < off (fw s) →
            client_Read r q s
            = Ok (delete_client r s, ReadReturn 0 (Some ErrFellBehind) q)).
Proof.
  intros Hr Hlim. split.
  - intros Hc p.
    destruct (Write_start_mode_total s p Hr Hlim Hc) as (f' & Hw & Hcl & _).
    by exists f'.
  - intros r o q Ho Hlt. apply (Read_fell_behind s r o q Ho). by left.
Qed.

Lemma Read_start_mode_behind_witness :
  ReadFromStart (c (fw outrun_start_store)) = true ∧
  0 < Limit (c (fw outrun_start_store)) ∧
  heap outrun_start_store !! 0%nat = Some 0 ∧
  0 < off (fw outrun_start_store) ∧
  client_Read 0%nat [] outrun_start_store
  = Ok (delete_client 0%nat outrun_start_store,
        ReadReturn 0 (Some ErrFellBehind) []).
Proof.
  split; [reflexivity |]. split; [reflexivity |]. split; [reflexivity |].
  split; [reflexivity |].
  exact (proj2 (Read_start_mode_behind outrun_start_store eq_refl eq_refl)
           0%nat 0 [] eq_refl eq_refl).
Defined.

(** ** A panic in the trimming step *)

(** C2 fails on the code.  Limit 6, ReadFromStart off, two readers; the
    second reader keeps up while the first one does not read.  The second
    write moves [f.off] to 4, and the next [Read] of the second reader runs
    [updateOff] with the first reader still registered at offset 0:
    [offJump] is -4 and [f.buf[offJump:]] panics.  One more byte written
    puts the second reader at [f.off], and then its [Close] panics in the
    same place. *)
Theorem updateOff_negative_index :
  run [OpNewReader; OpNewReader;
       OpWrite (bytes 1 5); OpRead 1%nat (replicate 10 Byte.x00);
       OpWrite (bytes 6 5); OpRead 1%nat (replicate 10 Byte.x00)]
      (NewFanoutWriter tail6)
  = Panic (SliceBounds (-4) 6) ∧
  run [OpNewReader; OpNewReader;
       OpWrite (bytes 1 5); OpRead 1%nat (replicate 10 Byte.x00);
       OpWrite (bytes 6 5); OpWrite (bytes 11 1); OpReaderClose 1%nat]
      (NewFanoutWriter tail6)
  = Panic (SliceBounds (-5) 6).
Proof. split; by vm_compute. Qed.

(** ** What one call does to the store *)

Lemma trimmed_tail (j : Z) (s : store) :
  0 ≤ j ≤ len (buf (fw s)) → tail (trimmed j s) = tail s.
Proof. intros Hj. unfold tail. simpl. rewrite len_drop by done. lia. Qed.

Lemma trimmed_zero (s : store) : trimmed 0 s = s.
Proof.
  destruct s as [[bf cf o cl cd] h]. unfold trimmed, with_fw, set_off, set_buf.
  simpl. by rewrite Z.add_0_r.
Qed.

Lemma updateOff_inv (s s' : store) :
  fwriter_updateOff s = Ok s' →
  ∃ j, 0 ≤ j ≤ len (buf (fw s)) ∧ s' = trimmed j s ∧
       (ReadFromStart (c (fw s)) = false → min_jump s j) ∧
       (ReadFromStart (c (fw s)) = true → j = 0).
Proof.
  unfold fwriter_updateOff.
  destruct (ReadFromStart (c (fw s))) eqn:Hr; simpl.
  - intros [= <-]. exists 0. pose proof (len_nonneg (buf (fw s))).
    split; [lia |]. split; [by rewrite trimmed_zero |]. done.
  - destruct (client_offs s) as [offs | |] eqn:Hoffs; simpl; try done.
    destruct (slice_from _ _) as [bf | |] eqn:Hs; simpl; try done.
    intros [= <-]. apply slice_from_inv in Hs as [Hj ->].
    eexists. split; [exact Hj |]. split; [reflexivity |].
    split; [| done]. intros _. by apply offJump_loop_min_jump.
Qed.

Lemma Write_inv (p : list byte) (s s' : store) (x : Z * option error) :
  fwriter_Write p s = Ok (s', x) →
  ∃ f', s' = with_fw f' s ∧
        c f' = c (fw s) ∧ clients f' = clients (fw s) ∧
        closed f' = closed (fw s) ∧
        off (fw s) ≤ off f' ∧
        tail s ≤ off f' + len (buf f').
Proof.
  assert (Hsame : s = with_fw (fw s) s) by (by destruct s).
  unfold fwriter_Write, tail.
  destruct (len p =? 0); [intros [= <- <-]; exists (fw s); split_and!; first [done | exact Hsame | lia] |].
  destruct (closed (fw s)) eqn:Hc; [intros [= <- <-]; exists (fw s); split_and!; first [done | exact Hsame | lia] |].
  destruct (negb _ && _); [intros [= <- <-]; exists (fw s); split_and!; first [done | exact Hsame | lia] |].
  pose proof (len_nonneg p) as Hp. pose proof (len_nonneg (buf (fw s))) as Hb.
  destruct (negb (Limit (c (fw s)) =? 0)).
  - destruct (Limit (c (fw s)) >? len p) eqn:El.
    + destruct (_ >? 0) eqn:Ei.
      * destruct (slice_from _ _) as [bf | |] eqn:Hs; simpl; try done.
        intros [= <- <-]. apply slice_from_inv in Hs as [Hj ->].
        eexists. split; [reflexivity |]. simpl.
        rewrite len_app, len_drop by done. split_and!; first [done | exact Hsame | lia].
      * simpl. intros [= <- <-]. eexists. split; [reflexivity |]. simpl.
        rewrite len_app. split_and!; first [done | exact Hsame | lia].
    + destruct (slice_from _ _) as [bf | |] eqn:Hs; simpl; try done.
      intros [= <- <-]. apply slice_from_inv in Hs as [Hj ->].
      eexists. split; [reflexivity |]. simpl.
      rewrite len_drop by done. split_and!; first [done | exact Hsame | lia].
  - simpl. intros [= <- <-]. eexists. split; [reflexivity |]. simpl.
    rewrite len_app. split_and!; first [done | exact Hsame | lia].
Qed.

Lemma NewReader_inv (s s' : store) (r : ptr) :
  fwriter_NewReader s = Ok (s', r) →
  closed (fw s) = false ∧ heap s !! r = None ∧
  s' = {| fw := set_clients ({[ r ]} ∪ clients (fw s)) (fw s);
          heap := <[ r := if ReadFromStart (c (fw s)) then off (fw s)
                          else off (fw s) + len (buf (fw s)) ]> (heap s) |}.
Proof.
  unfold fwriter_NewReader. destruct (closed (fw s)); [done |].
  intros [= <- <-]. split; [done |].
  split; [apply not_elem_of_dom, is_fresh |].
  by destruct (ReadFromStart _).
Qed.

Lemma Read_inv (r : ptr) (q : list byte) (s s' : store) (x : read_result) :
  client_Read r q s = Ok (s', x) → read_case r q s s' x.
Proof.
  unfold client_Read. destruct (heap s !! r) as [coff |] eqn:Hr; [| done].
  destruct ((coff - off (fw s) >? len (buf (fw s))) || (coff - off (fw s) <? 0))
    eqn:Hw.
  - intros [= <- <-]. apply (read_fell_behind r q s coff Hr).
    apply orb_true_iff in Hw as [Hw | Hw].
    + rewrite Z.gtb_ltb in Hw. apply Z.ltb_lt in Hw. right. unfold tail. lia.
    + apply Z.ltb_lt in Hw. left. lia.
  - apply orb_false_iff in Hw as [Hhi Hlo].
    rewrite Z.gtb_ltb in Hhi. apply Z.ltb_ge in Hhi, Hlo.
    rewrite slice_from_ok by lia. simpl.
    set (lbuf := drop (Z.to_nat (coff - off (fw s))) (buf (fw s))).
    assert (len lbuf = len (buf (fw s)) - (coff - off (fw s))) as Hl
      by (apply len_drop; lia).
    destruct (len lbuf =? 0) eqn:E0.
    + apply Z.eqb_eq in E0.
      assert (coff = tail s) as Ht by (unfold tail; lia).
      pose proof (read_drained r q s coff Hr Ht) as Hcase.
      destruct (closed (fw s)); intros H; simplify_eq; exact Hcase.
    + apply Z.eqb_neq in E0. pose proof (len_nonneg lbuf) as Hl0.
      assert (off (fw s) ≤ coff < tail s) as Hin by (unfold tail; lia).
      unfold copy. cbv beta iota zeta.
      destruct (Z.min (len q) (len lbuf) >? 0) eqn:En.
      * rewrite Z.gtb_ltb in En. apply Z.ltb_lt in En.
        assert (q ≠ []) as Hq by (intros ->; unfold len in En; simpl in En; lia).
        pose proof (read_copied r q s coff) as Hcase.
        fold lbuf in Hcase. unfold copy in Hcase. simpl in Hcase.
        destruct (fwriter_updateOff _) as [s1 | |] eqn:Hu; simpl; try done.
        intros [= <- <-]. by apply Hcase.
      * rewrite Z.gtb_ltb in En. apply Z.ltb_ge in En.
        assert (q = []) as -> by (apply len_nil_inv; pose proof (len_nonneg q); lia).
        simpl. change (len []) with 0. rewrite Z.min_l by lia.
        rewrite drop_nil. intros [= <- <-]. by apply (read_nothing r [] s coff).
Qed.

(** Case analysis on a [Read] that returned. *)
Ltac read_cases H :=
  apply Read_inv in H;
  destruct H as [coff Hr Hout | coff Hr Ht | coff Hr Hin Hq
                | coff s1 Hr Hin Hq lbuf Hu].

Lemma Close_inv (r : ptr) (s s' : store) (e : option error) :
  client_Close r s = Ok (s', e) →
  ∃ coff, heap s !! r = Some coff ∧ e = None ∧
          ((coff ≠ off (fw s) ∧ s' = delete_client r s) ∨
           (coff = off (fw s) ∧ fwriter_updateOff (delete_client r s) = Ok s')).
Proof.
  unfold client_Close. destruct (heap s !! r) as [coff |] eqn:Hr; [| done].
  intros H. exists coff. split; [done |].
  destruct (off (fw s) =? coff) eqn:E.
  - apply Z.eqb_eq in E.
    destruct (fwriter_updateOff _) as [s1 | |] eqn:Hu; simpl in H; try done.
    injection H as <- <-. split; [done |]. by right.
  - apply Z.eqb_neq in E. simpl in H. injection H as <- <-. split; [done |].
    left. split; [congruence | done].
Qed.

Lemma step_inv (o : op) (s s' : store) (e : event) :
  step o s = Ok (s', e) →
  match o with
  | OpWrite p => ∃ n err, fwriter_Write p s = Ok (s', (n, err)) ∧ e = EvWrite n err
  | OpClose => s' = with_fw (set_closed true (fw s)) s ∧ e = EvClose None
  | OpNewReader => ∃ r, fwriter_NewReader s = Ok (s', r) ∧ e = EvNewReader r
  | OpRead r q => ∃ x, client_Read r q s = Ok (s', x) ∧ e = EvRead r x
  | OpReaderClose r =>
      ∃ err, client_Close r s = Ok (s', err) ∧ e = EvReaderClose r err
  end.
Proof.
  destruct o as [p | | | r q | r]; simpl.
  - destruct (fwriter_Write p s) as [[s1 [n err]] | |]; simpl; try done.
    intros [= <- <-]. by exists n, err.
  - by intros [= <- <-].
  - destruct (fwriter_NewReader s) as [[s1 r] | |]; simpl; try done.
    intros [= <- <-]. by exists r.
  - destruct (client_Read r q s) as [[s1 x] | |]; simpl; try done.
    intros [= <- <-]. by exists x.
  - destruct (client_Close r s) as [[s1 err] | |]; simpl; try done.
    intros [= <- <-]. by exists err.
Qed.

Lemma run_cons_inv (o : op) (ops : list op) (s s' : store) (evs : list event) :
  run (o :: ops) s = Ok (s', evs) →
  ∃ s1 e es, step o s = Ok (s1, e) ∧ run ops s1 = Ok (s', es) ∧ evs = e :: es.
Proof.
  intros H. cbn [run] in H.
  destruct (step o s) as [[s1 e] | |] eqn:E1; simpl in H; try done.
  destruct (run ops s1) as [[s2 es] | |] eqn:E2; simpl in H; try done.
  injection H as <- <-. by exists s1, e, es.
Qed.

(** A property that every call keeps holds along every run. *)
Lemma run_preserves (P : store → Prop) :
  (∀ o s s' e, P s → step o s = Ok (s', e) → P s') →
  ∀ ops s s' evs, P s → run ops s = Ok (s', evs) → P s'.
Proof.
  intros Hstep ops. induction ops as [| o ops IH]; intros s s' evs HP Hrun.
  - simpl in Hrun. by simplify_eq.
  - apply run_cons_inv in Hrun as (s1 & e & es & H1 & Hrest & _).
    eapply IH; [| exact Hrest]. by eapply Hstep.
Qed.

(** ** No reader is ever past the end of the buffer *)

Lemma copy_count_le {A : Type} (q lbuf : list A) :
  0 ≤ (copy q lbuf).2 ≤ len lbuf.
Proof.
  unfold copy. simpl. pose proof (len_nonneg q). pose proof (len_nonneg lbuf). lia.
Qed.

Lemma tail_bound_step (o : op) (s s' : store) (e : event) :
  tail_bound s → step o s = Ok (s', e) → tail_bound s'.
Proof.
  intros Hb Hstep. apply step_inv in Hstep.
  destruct o as [p | | | r q | r].
  - destruct Hstep as (n & err & Hw & _).
    apply Write_inv in Hw as (f' & -> & _ & _ & _ & _ & Ht).
    intros r o Ho. specialize (Hb r o Ho). unfold tail in *. simpl. lia.
  - destruct Hstep as [-> _]. exact Hb.
  - destruct Hstep as (r & Hn & _).
    apply NewReader_inv in Hn as (_ & _ & ->).
    intros r' o. unfold tail. simpl. rewrite lookup_insert.
    pose proof (len_nonneg (buf (fw s))).
    destruct (decide (r = r')) as [-> | Hne].
    + intros [= <-]. destruct (ReadFromStart _); lia.
    + apply Hb.
  - destruct Hstep as (x & Hread & _). read_cases Hread; try exact Hb.
    apply updateOff_inv in Hu as (j & Hj & -> & _).
    intros r' o. rewrite trimmed_tail by exact Hj. unfold tail. simpl.
    rewrite lookup_insert. destruct (decide (r = r')) as [-> | Hne].
    + intros [= <-]. pose proof (copy_count_le q lbuf) as Hn.
      assert (len lbuf = len (buf (fw s)) - (coff - off (fw s))) as Hl.
      { apply len_drop. unfold tail in Hin. lia. }
      lia.
    + apply Hb.
  - destruct Hstep as (err & Hc & _).
    apply Close_inv in Hc as (coff & Hr & _ & [[_ ->] | [_ Hu]]); [exact Hb |].
    apply updateOff_inv in Hu as (j & Hj & -> & _).
    intros r' o. rewrite trimmed_tail by exact Hj. apply Hb.
Qed.


(** ** The integers stay small

    The end of the buffer moves by at most the number of bytes written, and
    every offset stays between 0 and the end of the buffer: an [int] of the
    machine holds all of them until that many bytes have been written. *)

Lemma offsets_in_range_step (o : op) (s s' : store) (e : event) :
  offsets_in_range s → 0 ≤ Limit (c (fw s)) → step o s = Ok (s', e) →
  offsets_in_range s' ∧ c (fw s') = c (fw s) ∧ tail s' ≤ tail s + written o.
Proof.
  intros [Hoff Hb] Hlim Hstep.
  assert (tail_bound s) as Htb by (intros r0 o0 H0; by apply (Hb r0 o0)).
  assert (∀ r0 o0, heap s !! r0 = Some o0 → 0 ≤ o0) as Hlow
    by (intros r0 o0 H0; by apply (Hb r0 o0)).
  pose proof (tail_bound_step o s s' e Htb Hstep) as Htb'.
  pose proof (len_nonneg (buf (fw s))) as Hlen.
  apply step_inv in Hstep.
  destruct o as [p | | | r q | r]; simpl.
  - destruct Hstep as (n & err & Hw & _).
    pose proof (Write_inv p s s' _ Hw) as (f' & -> & Hc & _ & _ & Hmono & _).
    split; [| split; [done |]].
    + split; [simpl; lia |]. intros r0 o0 H0.
      split; [by apply (Hlow r0) | exact (Htb' r0 o0 H0)].
    + revert Hw. unfold fwriter_Write, tail.
      pose proof (len_nonneg p) as Hp.
      destruct (len p =? 0); [intros [= <- _]; simpl; lia |].
      destruct (closed (fw s)); [intros [= <- _]; simpl; lia |].
      destruct (negb _ && _); [intros [= <- _]; simpl; lia |].
      destruct (negb (Limit (c (fw s)) =? 0)).
      * destruct (Limit (c (fw s)) >? len p) eqn:El.
        -- destruct (_ >? 0) eqn:Ei.
           ++ destruct (slice_from _ _) as [bf | |] eqn:Hs; simpl; try done.
              intros [= <- _]. apply slice_from_inv in Hs as [Hj ->]. simpl.
              rewrite len_app, len_drop by done. lia.
           ++ simpl. intros [= <- _]. simpl. rewrite len_app. lia.
        -- destruct (slice_from _ _) as [bf | |] eqn:Hs; simpl; try done.
           intros [= <- _]. apply slice_from_inv in Hs as [Hj ->]. simpl.
           rewrite len_drop by done. lia.
      * simpl. intros [= <- _]. simpl. rewrite len_app. lia.
  - destruct Hstep as [-> _]. unfold tail. simpl.
    split; [| split; [done | lia]]. split; [done |]. apply Hb.
  - destruct Hstep as (r & Hn & _).
    apply NewReader_inv in Hn as (_ & _ & ->).
    split; [| split; [done | unfold tail; simpl; lia]].
    split; [done |]. intros r0 o0 H0. split; [| exact (Htb' r0 o0 H0)].
    simpl in H0. rewrite lookup_insert in H0.
    destruct (decide (r = r0)) as [-> | Hne]; [| by apply (Hlow r0)].
    injection H0 as <-. destruct (ReadFromStart _); lia.
  - destruct Hstep as (x & Hread & _). read_cases Hread.
    + split; [| split; [done | unfold tail; simpl; lia]]. split; [done |]. apply Hb.
    + split; [| split; [done | lia]]. by split.
    + split; [| split; [done | lia]]. by split.
    + apply updateOff_inv in Hu as (j & Hj & -> & _).
      rewrite trimmed_tail in * by exact Hj.
      split; [| split; [done | unfold tail; simpl; lia]].
      split; [simpl; lia |]. intros r0 o0 H0. split; [| exact (Htb' r0 o0 H0)].
      simpl in H0. rewrite lookup_insert in H0.
      destruct (decide (r = r0)) as [-> | Hne]; [| by apply (Hlow r0)].
      injection H0 as <-. pose proof (copy_count_le q lbuf) as Hn.
      specialize (Hlow r0 coff Hr). subst lbuf. unfold copy in *. simpl in *. lia.
  - destruct Hstep as (err & Hc & _).
    apply Close_inv in Hc as (coff & Hr & _ & [[_ ->] | [_ Hu]]).
    + split; [| split; [done | unfold tail; simpl; lia]]. split; [done |]. apply Hb.
    + apply updateOff_inv in Hu as (j & Hj & -> & _).
      rewrite trimmed_tail in * by exact Hj.
      split; [| split; [done | unfold tail; simpl; lia]].
      split; [simpl; lia |]. intros r0 o0 H0. split; [| exact (Htb' r0 o0 H0)].
      by apply (Hlow r0).
Qed.

Lemma reachable_offsets_in_range (cfg : FanoutWriterConfig) (s : store) :
  0 ≤ Limit cfg → reachable cfg s → offsets_in_range s.
Proof.
  intros Hlim (ops & evs & Hrun).
  assert (offsets_in_range s ∧ c (fw s) = cfg) as [Hs _]; [| exact Hs].
  apply (run_preserves (λ s, offsets_in_range s ∧ c (fw s) = cfg))
    with (ops := ops) (s := NewFanoutWriter cfg) (evs := evs);
    [| | exact Hrun].
  - intros o s0 s1 e [Hr Hc] Hstep.
    destruct (offsets_in_range_step o s0 s1 e Hr) as (Hr' & Hc' & _);
      [by rewrite Hc | done |].
    split; [done | congruence].
  - split; [| done]. split.
    + simpl. pose proof (len_nonneg (Buf cfg)).
      destruct (ReadFromStart cfg); simpl; lia.
    + intros r o Ho. simpl in Ho. by rewrite lookup_empty in Ho.
Qed.

(** ** A reader below [f.off] stays there *)






(** ** After the writer's [Close] *)

Lemma unread_trimmed (s : store) (j : Z) (r : ptr) (o : Z) :
  heap s !! r = Some o → 0 ≤ j ≤ o - off (fw s) →
  unread (trimmed j s) r = unread s r.
Proof.
  intros Ho Hj. unfold unread. simpl. rewrite Ho, drop_drop.
  f_equal. lia.
Qed.

Lemma window_inv_trimmed (s : store) (j : Z) :
  window_inv s → 0 ≤ j ≤ len (buf (fw s)) →
  (∀ r o, r ∈ clients (fw s) → heap s !! r = Some o → j ≤ o - off (fw s)) →
  window_inv (trimmed j s).
Proof.
  intros Hw Hj Hle r Hin. destruct (Hw r Hin) as (o & Ho & Hlo & Hhi).
  exists o. split; [done |]. rewrite trimmed_tail by done.
  specialize (Hle r o Hin Ho). simpl. lia.
Qed.

Lemma updateOff_window (s : store) :
  window_inv s →
  ∃ j, fwriter_updateOff s = Ok (trimmed j s) ∧
       0 ≤ j ≤ len (buf (fw s)) ∧
       (∀ r o, r ∈ clients (fw s) → heap s !! r = Some o → j ≤ o - off (fw s)).
Proof.
  intros Hw. destruct (ReadFromStart (c (fw s))) eqn:Hr.
  - exists 0. rewrite trimmed_zero. split; [by apply updateOff_start |].
    pose proof (len_nonneg (buf (fw s))). split; [lia |].
    intros r o Hin Ho. destruct (Hw r Hin) as (o' & Ho' & Hlo & _).
    simplify_eq. lia.
  - destruct (updateOff_tail s Hr) as (j & Hu & Hj0 & Hjl & Hjle & _).
    { intros r Hin. destruct (Hw r Hin) as (o & Ho & Hlo & _). by exists o. }
    exists j. split; [done |]. split; [lia | done].
Qed.

Lemma window_inv_delete (s : store) (r : ptr) :
  window_inv s → window_inv (delete_client r s).
Proof.
  intros Hw r' Hin. simpl in Hin. apply elem_of_difference in Hin as [Hin _].
  apply (Hw r' Hin).
Qed.

Lemma window_inv_advance (s : store) (r : ptr) (o n : Z) :
  window_inv s → heap s !! r = Some o →
  off (fw s) ≤ o → 0 ≤ n → o + n ≤ tail s →
  window_inv (with_heap (<[ r := o + n ]> (heap s)) s).
Proof.
  intros Hw Ho Hlo Hn Hhi r' Hin. simpl in *.
  destruct (decide (r = r')) as [-> | Hne].
  - exists (o + n). rewrite lookup_insert_eq. split; [done |].
    unfold tail in *. simpl. lia.
  - rewrite lookup_insert_ne by done. apply (Hw r' Hin).
Qed.

Lemma take_copy (q lbuf : list byte) :
  take (Z.to_nat (copy q lbuf).2) (copy q lbuf).1 = take (length q) lbuf.
Proof.
  unfold copy, len. simpl.
  destruct (decide (length q ≤ length lbuf)%nat) as [Hle | Hgt].
  - rewrite Z.min_l by lia. rewrite Nat2Z.id.
    rewrite take_app_le by (rewrite length_take; lia).
    rewrite take_take. f_equal. lia.
  - rewrite Z.min_r by lia. rewrite Nat2Z.id.
    rewrite (take_ge lbuf (length q)) by lia.
    by rewrite take_app_length.
Qed.

Lemma copy_count {A : Type} (q lbuf : list A) :
  Z.to_nat (copy q lbuf).2 = (length q `min` length lbuf)%nat.
Proof. unfold copy, len. simpl. lia. Qed.

Lemma Read_drained (s : store) (r : ptr) (o : Z) (q : list byte) :
  heap s !! r = Some o → o = tail s →
  client_Read r q s
  = Ok (s, if closed (fw s) then ReadReturn 0 (Some EOF) q else ReadWait).
Proof.
  intros Ho Ht. unfold client_Read. rewrite Ho.
  pose proof (len_nonneg (buf (fw s))) as Hb. unfold tail in Ht.
  rewrite in_window_test by lia. rewrite slice_from_ok by lia. simpl.
  assert (len (drop (Z.to_nat (o - off (fw s))) (buf (fw s))) = 0) as ->
    by (rewrite len_drop; lia).
  simpl. by destruct (closed (fw s)).
Qed.

Lemma Read_nothing (s : store) (r : ptr) (o : Z) :
  heap s !! r = Some o → off (fw s) ≤ o < tail s →
  client_Read r [] s = Ok (s, ReadReturn 0 None []).
Proof.
  intros Ho Hin. unfold client_Read. rewrite Ho. unfold tail in Hin.
  rewrite in_window_test by lia. rewrite slice_from_ok by lia. simpl.
  set (lbuf := drop (Z.to_nat (o - off (fw s))) (buf (fw s))).
  assert (len lbuf = len (buf (fw s)) - (o - off (fw s))) as Hl
    by (apply len_drop; lia).
  rewrite eqb_false by lia. unfold copy. simpl.
  change (len []) with 0. rewrite Z.min_l by lia. simpl.
  by rewrite drop_nil.
Qed.

Lemma unread_drained (s : store) (r : ptr) (o : Z) :
  heap s !! r = Some o → off (fw s) ≤ o ≤ tail s →
  (unread s r = [] ↔ o = tail s).
Proof.
  intros Ho Hin. unfold unread, tail in *. rewrite Ho. split.
  - intros E. apply (f_equal len) in E. rewrite len_drop in E by lia.
    change (len []) with 0 in E. lia.
  - intros ->. apply drop_ge. unfold len. lia.
Qed.

Lemma after_close_step (r : ptr) (s0 s : store) (o : op) :
  after_close r s0 s → admissible r s0 o →
  ∃ s' e, step o s = Ok (s', e) ∧ after_close r s0 s' ∧
          delivered r e = take (requested r o) (unread s r) ∧
          unread s' r = drop (requested r o) (unread s r).
Proof.
  intros (Hc & Hw & Hin & Halloc) Hadm.
  destruct (Hw r Hin) as (ro & Hro & Hrlo & Hrhi).
  destruct o as [p | | | r' q | r']; simpl in Hadm.
  - (* Write *)
    exists s. unfold step, fwriter_Write. rewrite Hc.
    destruct (len p =? 0); simpl; eexists; (split; [reflexivity |]);
      by rewrite drop_0.
  - (* Close *)
    eexists _, _. split; [reflexivity |]. split; [| by rewrite drop_0].
    split; [done |]. split; [exact Hw |]. by split.
  - done.
  - (* Read *)
    destruct (Halloc r' Hadm) as [o' Ho'].
    destruct (decide (o' < off (fw s) ∨ tail s < o')) as [Hout | Hwin].
    { (* fell behind: not [r] *)
      assert (r' ≠ r) as Hne by (intros ->; simplify_eq; lia).
      exists (delete_client r' s), (EvRead r' (ReadReturn 0 (Some ErrFellBehind) q)).
      split.
      { unfold step. rewrite (Read_fell_behind s r' o' q Ho'); [done |].
        unfold tail in Hout. lia. }
      split.
      { split; [done |]. split; [by apply window_inv_delete |].
        split; [| done]. simpl.
        apply elem_of_difference. split; [done |].
        rewrite elem_of_singleton. congruence. }
      simpl. rewrite !decide_False by done. by rewrite drop_0. }
    assert (off (fw s) ≤ o' ≤ tail s) as Hin' by lia. clear Hwin.
    destruct (decide (o' = tail s)) as [Htail | Hlt].
    { (* drained *)
      exists s, (EvRead r' (ReadReturn 0 (Some EOF) q)). split.
      { unfold step. rewrite (Read_drained s r' o' q Ho' Htail), Hc. done. }
      split; [done |]. simpl. destruct (decide (r' = r)) as [-> | Hne].
      - simplify_eq.
        assert (unread s r = []) as -> by (by apply (unread_drained s r (tail s))).
        by rewrite take_nil, drop_nil.
      - by rewrite drop_0. }
    destruct q as [| q0 q].
    { (* no room *)
      exists s, (EvRead r' (ReadReturn 0 None [])). split.
      { unfold step. rewrite (Read_nothing s r' o' Ho'); [done | lia]. }
      split; [done |]. simpl. destruct (decide (r' = r)); by rewrite ?drop_0. }
    (* bytes copied *)
    set (lbuf := drop (Z.to_nat (o' - off (fw s))) (buf (fw s))).
    assert (len lbuf = len (buf (fw s)) - (o' - off (fw s))) as Hl
      by (apply len_drop; unfold tail in *; lia).
    pose proof (copy_count_le (q0 :: q) lbuf) as Hn.
    assert (0 < (copy (q0 :: q) lbuf).2) as Hn0.
    { assert (0 < len (q0 :: q)) by (unfold len; simpl; lia).
      unfold copy. cbn [snd]. unfold tail in *. lia. }
    set (n := (copy (q0 :: q) lbuf).2) in *.
    set (s1 := with_heap (<[ r' := o' + n ]> (heap s)) s).
    assert (window_inv s1) as Hw1.
    { apply window_inv_advance; unfold tail in *; try done; lia. }
    destruct (updateOff_window s1 Hw1) as (j & Hu & Hj & Hjle).
    exists (trimmed j s1),
      (EvRead r' (ReadReturn n None (copy (q0 :: q) lbuf).1)).
    split.
    { unfold step.
      rewrite (Read_runs_updateOff s r' (q0 :: q) o' Ho');
        [| unfold tail in *; lia | exact Hn0].
      fold lbuf n s1. by rewrite Hu. }
    split.
    { split; [done |]. split; [by apply window_inv_trimmed |].
      split; [done |]. intros r2 H2. simpl.
      rewrite lookup_insert. destruct (decide (r' = r2)); [done | by apply Halloc]. }
    simpl. destruct (decide (r' = r)) as [-> | Hne].
    + simplify_eq.
      assert (heap s1 !! r = Some (ro + n)) as Hro1
        by (simpl; by rewrite lookup_insert_eq).
      split.
      * unfold n. rewrite take_copy. unfold unread. by rewrite Hro.
      * rewrite (unread_trimmed s1 j r (ro + n) Hro1).
        2:{ specialize (Hjle r (ro + n) Hin Hro1).
            change (fw s1) with (fw s) in *. lia. }
        unfold unread. rewrite Hro1, Hro. simpl. fold lbuf.
        unfold lbuf at 1. rewrite drop_drop.
        destruct (decide (length (q0 :: q) ≤ length lbuf)%nat) as [Hle | Hgt].
        -- f_equal.
           assert (n = Z.of_nat (S (length q))) as ->; [| lia].
           subst n. unfold copy, len. cbn [snd length] in *. lia.
        -- assert (n = len lbuf) as Hnl.
           { subst n. unfold copy, len. cbn [snd length] in *. lia. }
           assert (length lbuf = (length (buf (fw s)) - Z.to_nat (ro - off (fw s)))%nat)
             as Hll by (unfold lbuf; apply length_drop).
           cbn [length] in Hgt.
           rewrite !drop_ge; [done | lia |]. unfold len, tail in *. lia.
    + rewrite drop_0. split; [done |].
      assert (heap s1 !! r = Some ro) as Hro1
        by (simpl; by rewrite lookup_insert_ne).
      rewrite (unread_trimmed s1 j r ro Hro1).
      2:{ specialize (Hjle r ro Hin Hro1).
          change (fw s1) with (fw s) in *. lia. }
      unfold unread. by rewrite Hro1, Hro.
  - (* the Close of another reader *)
    destruct Hadm as [Hsome Hne]. destruct (Halloc r' Hsome) as [o' Ho'].
    assert (r ∈ clients (fw (delete_client r' s))) as Hin1.
    { simpl. apply elem_of_difference. split; [done |].
      rewrite elem_of_singleton. congruence. }
    pose proof (window_inv_delete s r' Hw) as Hw1.
    destruct (Close_runs_updateOff s r' o' Ho') as [Heq Hneq].
    destruct (decide (o' = off (fw s))) as [E | E].
    + destruct (updateOff_window _ Hw1) as (j & Hu & Hj & Hjle).
      exists (trimmed j (delete_client r' s)), (EvReaderClose r' None).
      split; [unfold step; rewrite (Heq E), Hu; done |].
      split.
      { split; [done |]. split; [by apply window_inv_trimmed |]. by split. }
      simpl. rewrite drop_0. split; [done |].
      rewrite (unread_trimmed (delete_client r' s) j r ro Hro); [done |].
      specialize (Hjle r ro Hin1 Hro).
      change (fw (delete_client r' s)) with (set_clients (clients (fw s) ∖ {[ r' ]}) (fw s)) in *.
      simpl in *. lia.
    + exists (delete_client r' s), (EvReaderClose r' None).
      split; [unfold step; rewrite (Hneq E); done |].
      split; [by repeat split |]. simpl. by rewrite drop_0.
Qed.

Lemma after_close_run (r : ptr) (s0 : store) (ops : list op) :
  ∀ s, after_close r s0 s → Forall (admissible r s0) ops →
       ∃ s' evs, run ops s = Ok (s', evs) ∧ after_close r s0 s' ∧
                 received r evs = take (wanted r ops) (unread s r) ∧
                 unread s' r = drop (wanted r ops) (unread s r).
Proof.
  induction ops as [| o ops IH]; intros s Hs Hadm.
  - exists s, []. simpl. by rewrite drop_0.
  - apply Forall_cons in Hadm as [Ho Hops].
    destruct (after_close_step r s0 s o Hs Ho) as (s1 & e & Hstep & Hs1 & Hd & Hu).
    destruct (IH s1 Hs1 Hops) as (s2 & es & Hrun & Hs2 & Hrec & Hun).
    exists s2, (e :: es). cbn [run received wanted].
    rewrite Hstep. simpl. rewrite Hrun. simpl.
    split; [done |]. split; [done |].
    rewrite Hd, Hrec, Hun, Hu. split.
    + apply take_take_drop.
    + apply drop_drop.
Qed.

Lemma after_close_EOF (r : ptr) (s0 s : store) (q : list byte) :
  after_close r s0 s → unread s r = [] →
  client_Read r q s = Ok (s, ReadReturn 0 (Some EOF) q).
Proof.
  intros (Hc & Hw & Hin & _) Hun.
  destruct (Hw r Hin) as (o & Ho & Hwin).
  apply (unread_drained s r o Ho Hwin) in Hun.
  by rewrite (Read_drained s r o q Ho Hun), Hc.
Qed.

Lemma stranded_closed_reachable : reachable tail6 stranded_closed.
Proof.
  exists [OpNewReader; OpWrite (bytes 1 5); OpWrite (bytes 6 5); OpClose].
  eexists. vm_compute. reflexivity.
Qed.

(** C6 does not hold for every registered reader: the reader that the
    second write left behind is still registered when the writer closes,
    and its [Read] returns [ErrFellBehind], neither bytes nor [io.EOF]. *)
Lemma Read_after_Close_fell_behind :
  reachable tail6 stranded_closed ∧
  closed (fw stranded_closed) = true ∧
  0%nat ∈ clients (fw stranded_closed) ∧
  client_Read 0%nat (replicate 10 Byte.x00) stranded_closed
  = Ok (delete_client 0%nat stranded_closed,
        ReadReturn 0 (Some ErrFellBehind) (replicate 10 Byte.x00)) ∧
  ¬ (∀ s r q s' n e q',
       closed (fw s) = true → r ∈ clients (fw s) →
       client_Read r q s = Ok (s', ReadReturn n e q') →
       e = None ∨ e = Some EOF).
Proof.
  assert (Hin : 0%nat ∈ clients (fw stranded_closed)) by (by vm_compute).
  assert (Hread : client_Read 0%nat (replicate 10 Byte.x00) stranded_closed
                  = Ok (delete_client 0%nat stranded_closed,
                        ReadReturn 0 (Some ErrFellBehind) (replicate 10 Byte.x00)))
    by reflexivity.
  split; [apply stranded_closed_reachable |]. split; [reflexivity |].
  split; [exact Hin |]. split; [exact Hread |].
  intros H.
  destruct (H stranded_closed 0%nat _ _ _ _ _ eq_refl Hin Hread); discriminate.
Qed.

(** C6, as the code has it.  The writer is closed, every registered reader
    is inside the window [f.off .. f.off + len(f.buf)], and [r] is one of
    them.  Then any sequence of calls that does not close [r] (writes,
    another [Close] of the writer, reads with destinations of any length by
    any client, [Close] of other readers) runs without a panic; the bytes
    handed to [r], in order, are exactly the first [k] bytes that [r] had
    not consumed when the sequence began, where [k] is the room [r] offered
    in total, and the rest is still waiting for it; and once [r] has
    consumed them all, [Read] on [r] returns [(0, io.EOF)] and leaves the
    store as it is, so that it does so again on every further call. *)
Theorem drain_after_Close (s : store) (r : ptr) (ops : list op) :
  closed (fw s) = true →
  window_inv s →
  r ∈ clients (fw s) →
  Forall (admissible r s) ops →
  ∃ s' evs,
    run ops s = Ok (s', evs) ∧
    received r evs = take (wanted r ops) (unread s r) ∧
    unread s' r = drop (wanted r ops) (unread s r) ∧
    ((length (unread s r) ≤ wanted r ops)%nat →
     ∀ q, client_Read r q s' = Ok (s', ReadReturn 0 (Some EOF) q)).
Proof.
  intros Hc Hw Hin Hadm.
  assert (after_close r s s) as Hs by (by repeat split).
  destruct (after_close_run r s ops s Hs Hadm) as (s' & evs & Hrun & Hs' & Hrec & Hun).
  exists s', evs. split; [done |]. split; [done |]. split; [done |].
  intros Hlen q. apply (after_close_EOF r s s' q Hs').
  rewrite Hun. by apply drop_ge.
Qed.

Lemma five_then_closed_window : window_inv five_then_closed.
Proof.
  intros r Hin. change (r ∈ ({[ 0%nat ]} : gset ptr)) in Hin.
  apply elem_of_singleton in Hin as ->.
  exists 0. split; [reflexivity |]. vm_compute. split; discriminate.
Qed.

Lemma drain_after_Close_witness :
  closed (fw five_then_closed) = true ∧
  window_inv five_then_closed ∧
  0%nat ∈ clients (fw five_then_closed) ∧
  Forall (admissible 0%nat five_then_closed)
    [OpRead 0%nat (replicate 2 Byte.x00); OpRead 0%nat (replicate 10 Byte.x00)] ∧
  ∃ s' evs,
    run [OpRead 0%nat (replicate 2 Byte.x00); OpRead 0%nat (replicate 10 Byte.x00)]
        five_then_closed = Ok (s', evs) ∧
    received 0%nat evs = bytes 1 5 ∧
    ∀ q, client_Read 0%nat q s' = Ok (s', ReadReturn 0 (Some EOF) q).
Proof.
  assert (Hin : 0%nat ∈ clients (fw five_then_closed)) by (by vm_compute).
  assert (Hadm : Forall (admissible 0%nat five_then_closed)
            [OpRead 0%nat (replicate 2 Byte.x00);
             OpRead 0%nat (replicate 10 Byte.x00)]).
  { repeat constructor; by exists 0. }
  split; [reflexivity |]. split; [apply five_then_closed_window |].
  split; [exact Hin |]. split; [exact Hadm |].
  destruct (drain_after_Close five_then_closed 0%nat _ eq_refl
              five_then_closed_window Hin Hadm)
    as (s' & evs & Hrun & Hrec & _ & Heof).
  exists s', evs. split; [exact Hrun |]. split; [exact Hrec |].
  apply Heof. vm_compute. lia.
Defined.

Lemma five_then_closed_reachable :
  reachable (Build_FanoutWriterConfig [] 0 false) five_then_closed.
Proof.
  exists [OpNewReader; OpWrite (bytes 1 5); OpClose]. eexists.
  vm_compute. reflexivity.
Qed.

(** ** Without a limit no reader leaves the window *)

Lemma Write_unbounded_inv (p : list byte) (s s' : store) (x : Z * option error) :
  Limit (c (fw s)) = 0 →
  fwriter_Write p s = Ok (s', x) →
  s' = s ∨ s' = with_fw (set_buf (buf (fw s) ++ p) (fw s)) s.
Proof.
  intros Hl. unfold fwriter_Write. rewrite Hl. simpl.
  destruct (len p =? 0); [intros [= <- <-]; by left |].
  destruct (closed (fw s)); [intros [= <- <-]; by left |].
  destruct (negb _ && _); [intros [= <- <-]; by left |].
  simpl. intros [= <- <-]. by right.
Qed.

Lemma updateOff_keeps_window (s s' : store) :
  window_inv s → fwriter_updateOff s = Ok s' →
  window_inv s' ∧ c (fw s') = c (fw s).
Proof.
  intros Hw Hu. destruct (updateOff_window s Hw) as (j & Hu' & Hj & Hle).
  rewrite Hu' in Hu. injection Hu as <-.
  split; [by apply window_inv_trimmed | done].
Qed.

Lemma window_inv_step_unbounded (o : op) (s s' : store) (e : event) :
  Limit (c (fw s)) = 0 ∧ window_inv s →
  step o s = Ok (s', e) →
  Limit (c (fw s')) = 0 ∧ window_inv s'.
Proof.
  intros [Hl Hw] Hstep. apply step_inv in Hstep.
  destruct o as [p | | | r q | r].
  - destruct Hstep as (n & err & Hwr & _).
    apply (Write_unbounded_inv p s s' _ Hl) in Hwr as [-> | ->]; [done |].
    split; [done |]. intros r Hin. destruct (Hw r Hin) as (o & Ho & Hlo & Hhi).
    exists o. split; [done |]. unfold tail in *. simpl. rewrite len_app.
    pose proof (len_nonneg p). lia.
  - destruct Hstep as [-> _]. by split.
  - destruct Hstep as (r & Hn & _).
    apply NewReader_inv in Hn as (_ & Hfresh & ->). split; [done |].
    intros r' Hin. simpl in *. pose proof (len_nonneg (buf (fw s))) as Hb.
    destruct (decide (r = r')) as [-> | Hne].
    + rewrite lookup_insert_eq. eexists. split; [reflexivity |].
      unfold tail. simpl. destruct (ReadFromStart _); lia.
    + rewrite lookup_insert_ne by done. apply Hw.
      apply elem_of_union in Hin as [Hin | Hin]; [| done].
      apply elem_of_singleton in Hin. congruence.
  - destruct Hstep as (x & Hread & _). read_cases Hread; try by split.
    + split; [done | by apply window_inv_delete].
    + pose proof (copy_count_le q lbuf) as Hn.
      assert (len lbuf = len (buf (fw s)) - (coff - off (fw s))) as Hlb.
      { apply len_drop. unfold tail in Hin. lia. }
      apply updateOff_keeps_window in Hu as [Hw' Hc'].
      * split; [| done]. by rewrite Hc'.
      * apply window_inv_advance; try done; unfold tail in *; lia.
  - destruct Hstep as (err & Hc & _).
    apply Close_inv in Hc as (coff & Hr & _ & [[_ ->] | [_ Hu]]).
    + split; [done | by apply window_inv_delete].
    + apply updateOff_keeps_window in Hu as [Hw' Hc'];
        [| by apply window_inv_delete].
      split; [| done]. by rewrite Hc'.
Qed.

Lemma reachable_window_unbounded (cfg : FanoutWriterConfig) (s : store) :
  Limit cfg = 0 → reachable cfg s → window_inv s.
Proof.
  intros Hl (ops & evs & Hrun).
  apply (run_preserves (λ s, Limit (c (fw s)) = 0 ∧ window_inv s)
           window_inv_step_unbounded ops (NewFanoutWriter cfg) s evs);
    [| exact Hrun].
  split; [done |]. intros r Hin. simpl in Hin.
  by apply not_elem_of_empty in Hin.
Qed.

(** ** The repository's tests, run on the model *)

Example TestCreateReaderWriteThenRead :
  events [OpNewReader; OpNewReader; OpWrite (bytes 1 5);
          OpRead 0%nat (dst 5); OpRead 1%nat (dst 5)]
         {| Buf := []; Limit := 0; ReadFromStart := false |}
  = Ok [EvNewReader 0; EvNewReader 1; EvWrite 5 None;
        EvRead 0%nat (ReadReturn 5 None (bytes 1 5));
        EvRead 1%nat (ReadReturn 5 None (bytes 1 5))].
Proof. by vm_compute. Qed.

Example TestWriteCreateReaderWriteThenRead :
  events [OpWrite (bytes 1 5); OpNewReader; OpWrite (bytes 1 5);
          OpRead 0%nat (dst 10)]
         {| Buf := []; Limit := 0; ReadFromStart := false |}
  = Ok [EvWrite 5 None; EvNewReader 0; EvWrite 5 None;
        EvRead 0%nat (ReadReturn 5 None (bytes 1 5 ++ dst 5))].
Proof. by vm_compute. Qed.

Example TestRFSLimitDoubleWriteOverCreateReaderRead :
  events [OpWrite (bytes 1 5); OpWrite (bytes 6 5); OpNewReader;
          OpRead 0%nat (dst 10)] start6
  = Ok [EvWrite 5 None; EvWrite 5 None; EvNewReader 0;
        EvRead 0%nat (ReadReturn 6 None (bytes 5 6 ++ dst 4))].
Proof. by vm_compute. Qed.

Example TestRFSLimitWriteOverCreateReaderRead :
  events [OpWrite (bytes 1 10); OpNewReader; OpRead 0%nat (dst 10)] start6
  = Ok [EvWrite 10 None; EvNewReader 0;
        EvRead 0%nat (ReadReturn 6 None (bytes 5 6 ++ dst 4))].
Proof. by vm_compute. Qed.

Example TestInitialBuffer :
  events [OpNewReader; OpRead 0%nat (dst 10)]
         {| Buf := bytes 1 5; Limit := 0; ReadFromStart := true |}
  = Ok [EvNewReader 0;
        EvRead 0%nat (ReadReturn 5 None (bytes 1 5 ++ dst 5))].
Proof. by vm_compute. Qed.

Example TestWriteAfterClose :
  events [OpClose; OpWrite (bytes 1 5)]
         {| Buf := []; Limit := 0; ReadFromStart := false |}
  = Ok [EvClose None; EvWrite 0 (Some ErrClosedPipe)].
Proof. by vm_compute. Qed.

Example TestCreateReaderAfterClose :
  events [OpClose; OpNewReader]
         {| Buf := []; Limit := 0; ReadFromStart := false |}
  = Panic NewReaderWhenClosed.
Proof. by vm_compute. Qed.

Example TestLimitNoReaderWriteWouldCauseFallBehindNoErr :
  events [OpWrite (bytes 1 10)] tail6 = Ok [EvWrite 10 None].
Proof. by vm_compute. Qed.

Example TestLimitReaderFellBehind :
  events [OpNewReader; OpWrite (bytes 1 5); OpWrite (bytes 6 5);
          OpRead 0%nat (dst 10)] tail6
  = Ok [EvNewReader 0; EvWrite 5 None; EvWrite 5 None;
        EvRead 0%nat (ReadReturn 0 (Some ErrFellBehind) (dst 10))].
Proof. by vm_compute. Qed.

Example TestDeferredWriteAndClose :
  events [OpNewReader; OpRead 0%nat (dst 15); OpWrite (bytes 1 10); OpClose;
          OpRead 0%nat (dst 15); OpRead 0%nat (dst 10)]
         {| Buf := []; Limit := 0; ReadFromStart := false |}
  = Ok [EvNewReader 0; EvRead 0%nat ReadWait; EvWrite 10 None; EvClose None;
        EvRead 0%nat (ReadReturn 10 None (bytes 1 10 ++ dst 5));
        EvRead 0%nat (ReadReturn 0 (Some EOF) (dst 10))].
Proof. by vm_compute. Qed.

(** The test [TestLimitWriteWouldCauseFallBehind] expects an error that
    [fanoutwriter.go] does not declare; on the code the write succeeds and
    the reader silently loses the first four bytes. *)
Example TestLimitWriteWouldCauseFallBehind_on_the_code :
  events [OpNewReader; OpWrite (bytes 1 10); OpRead 0%nat (dst 10)] tail6
  = Ok [EvNewReader 0; EvWrite 10 None;
        EvRead 0%nat (ReadReturn 6 None (bytes 5 6 ++ dst 4))].
Proof. by vm_compute. Qed.

(** ** More about [Write] *)

Lemma Write_accepted (s : store) (p : list byte) :
  closed (fw s) = false → p ≠ [] →
  ReadFromStart (c (fw s)) = true ∨ (∃ r, r ∈ clients (fw s)) →
  0 ≤ Limit (c (fw s)) →
  ∃ f', fwriter_Write p s = Ok (with_fw f' s, (len p, None)) ∧
        c f' = c (fw s) ∧ clients f' = clients (fw s) ∧ closed f' = false ∧
        buf f' = (if Limit (c (fw s)) =? 0 then buf (fw s) ++ p
                  else last_bytes (Limit (c (fw s))) (buf (fw s) ++ p)) ∧
        off (fw s) ≤ off f' ≤ tail s ∧
        off f' + len (buf f')
        = tail s + (if Limit (c (fw s)) =? 0 then len p
                    else Z.min (len p) (Limit (c (fw s)))).
Proof.
  intros Hc Hp Hread Hlim. unfold fwriter_Write, tail, last_bytes.
  rewrite (len_pos_of_ne_nil p Hp), Hc.
  assert ((negb (ReadFromStart (c (fw s)))
           && (Z.of_nat (size (clients (fw s))) =? 0)) = false) as ->.
  { destruct Hread as [-> | [r Hr]]; [done |].
    rewrite (registered_size s r Hr). apply andb_false_r. }
  pose proof (len_nonneg p) as Hp0. pose proof (len_nonneg (buf (fw s))) as Hb0.
  assert (0 < len p) as Hp1.
  { destruct (decide (len p = 0)) as [E | E]; [| lia].
    by apply len_nil_inv in E. }
  destruct (Limit (c (fw s)) =? 0) eqn:E0; simpl.
  - eexists. split; [reflexivity |]. simpl. rewrite len_app.
    split_and!; try done; lia.
  - apply Z.eqb_neq in E0.
    destruct (Limit (c (fw s)) >? len p) eqn:El.
    + rewrite Z.gtb_ltb in El. apply Z.ltb_lt in El.
      destruct (len (buf (fw s)) + len p - Limit (c (fw s)) >? 0) eqn:Ei.
      * rewrite Z.gtb_ltb in Ei. apply Z.ltb_lt in Ei.
        rewrite slice_from_ok by lia. simpl.
        eexists. split; [reflexivity |]. simpl.
        rewrite !len_app, len_drop by lia.
        split_and!; try done; try lia.
        rewrite drop_app_le; [done |]. unfold len in *. lia.
      * rewrite Z.gtb_ltb in Ei. apply Z.ltb_ge in Ei. simpl.
        eexists. split; [reflexivity |]. simpl. rewrite !len_app.
        split_and!; try done; try lia.
        by replace (Z.to_nat _) with 0%nat by lia.
    + rewrite Z.gtb_ltb in El. apply Z.ltb_ge in El.
      rewrite slice_from_ok by lia. simpl.
      eexists. split; [reflexivity |]. simpl.
      rewrite len_app, len_drop by lia.
      split_and!; try done; try lia.
      rewrite drop_app_ge by (unfold len in *; lia).
      f_equal. unfold len in *. lia.
Qed.

(** X1: what an accepted write leaves in the buffer.  On an open writer that
    does not throw the data away (ReadFromStart on, or somebody registered),
    a non-empty [Write] with a limit that is not negative returns
    [(len(p), nil)]; without a limit the buffer is the old one followed by
    [p] and [f.off] stays; with a limit the buffer is the last [Limit] bytes
    of the old one followed by [p].  The end of the buffer moves by [len(p)],
    but only by [Limit] when [p] is at least as long as the limit.  Readers
    and registry are untouched. *)
Theorem Write_keeps_last_bytes (s : store) (p : list byte) :
  closed (fw s) = false → p ≠ [] →
  ReadFromStart (c (fw s)) = true ∨ (∃ r, r ∈ clients (fw s)) →
  0 ≤ Limit (c (fw s)) →
  ∃ s', fwriter_Write p s = Ok (s', (len p, None)) ∧
        heap s' = heap s ∧ clients (fw s') = clients (fw s) ∧
        (Limit (c (fw s)) = 0 →
         buf (fw s') = buf (fw s) ++ p ∧ off (fw s') = off (fw s)) ∧
        (0 < Limit (c (fw s)) →
         buf (fw s') = last_bytes (Limit (c (fw s))) (buf (fw s) ++ p) ∧
         len (buf (fw s')) = Z.min (Limit (c (fw s))) (len (buf (fw s)) + len p) ∧
         tail s' = tail s + Z.min (len p) (Limit (c (fw s)))).
Proof.
  intros Hc Hp Hread Hlim.
  destruct (Write_accepted s p Hc Hp Hread Hlim)
    as (f' & Hw & _ & Hcl & _ & Hbuf & Hoff & Htail).
  exists (with_fw f' s). split; [done |]. split; [done |]. split; [done |].
  pose proof (len_nonneg p). pose proof (len_nonneg (buf (fw s))).
  split.
  - intros E. rewrite E in *. simpl in *. split; [done |].
    rewrite Hbuf, len_app in Htail. unfold tail in Htail. lia.
  - intros Hpos. rewrite eqb_false in * by lia. split; [done |].
    split; [| done]. simpl. rewrite Hbuf. unfold last_bytes.
    rewrite len_app.
    destruct (decide (len (buf (fw s)) + len p ≤ Limit (c (fw s)))).
    + replace (Z.to_nat _) with 0%nat by lia. rewrite drop_0, len_app. lia.
    + rewrite len_drop by (rewrite len_app; lia). rewrite len_app. lia.
Qed.

Lemma Write_keeps_last_bytes_witness :
  closed (fw (NewFanoutWriter start6)) = false ∧ bytes 1 10 ≠ [] ∧
  0 ≤ Limit (c (fw (NewFanoutWriter start6))) ∧
  ∃ s', fwriter_Write (bytes 1 10) (NewFanoutWriter start6)
        = Ok (s', (10, None)) ∧
        buf (fw s') = bytes 5 6.
Proof.
  split; [reflexivity |]. split; [discriminate |]. split; [discriminate |].
  destruct (Write_keeps_last_bytes (NewFanoutWriter start6) (bytes 1 10)
              eq_refl
              (λ H : bytes 1 10 = [], eq_ind (bytes 1 10)
                 (λ l, match l with [] => False | _ :: _ => True end) I [] H)
              (or_introl eq_refl)
              (λ H : (0 ?= 6) = Gt, eq_ind Lt
                 (λ x, match x with Gt => False | _ => True end) I Gt H))
    as (s' & Hw & _ & _ & _ & Hb).
  exists s'. split; [exact Hw |].
  exact (proj1 (Hb eq_refl)).
Defined.

(** X2: a reader that had read everything gets the write, or its end.  The
    writer is open, the limit not negative, reader [r] registered with its
    offset at the end of the buffer.  After a non-empty [Write] of [p] the
    bytes waiting for [r] are [p] itself when there is no limit or [p] is
    shorter than the limit, and the last [Limit] bytes of [p] otherwise: the
    beginning of a write as long as the limit is lost to every reader,
    though [Write] reports the whole length and [r] does not fall behind. *)
Theorem Write_reaches_drained_reader (s : store) (p : list byte) (r : ptr) :
  closed (fw s) = false → p ≠ [] → 0 ≤ Limit (c (fw s)) →
  r ∈ clients (fw s) → heap s !! r = Some (tail s) →
  ∃ s', fwriter_Write p s = Ok (s', (len p, None)) ∧
        heap s' !! r = Some (tail s) ∧
        off (fw s') ≤ tail s ≤ tail s' ∧
        unread s' r
        = if (Limit (c (fw s)) =? 0) || (len p <? Limit (c (fw s)))
          then p else last_bytes (Limit (c (fw s))) p.
Proof.
  intros Hc Hp Hlim Hin Hr.
  destruct (Write_accepted s p Hc Hp (or_intror (ex_intro _ r Hin)) Hlim)
    as (f' & Hw & _ & _ & _ & Hbuf & Hoff & Htail).
  exists (with_fw f' s). split; [done |]. split; [done |].
  pose proof (len_nonneg p) as Hp0. pose proof (len_nonneg (buf (fw s))) as Hb0.
  pose proof (len_nonneg (buf f')) as Hf0.
  assert (0 < len p) as Hp1.
  { destruct (decide (len p = 0)) as [E | E]; [| lia]. by apply len_nil_inv in E. }
  split.
  { unfold tail at 3. simpl. destruct (Limit (c (fw s)) =? 0); lia. }
  unfold unread. simpl. rewrite Hr. unfold tail in *.
  destruct (Limit (c (fw s)) =? 0) eqn:E0; simpl.
  - rewrite Hbuf in *. rewrite len_app in Htail.
    assert (off f' = off (fw s)) as -> by lia.
    rewrite drop_app_length'; [done |]. unfold len. lia.
  - apply Z.eqb_neq in E0. rewrite Hbuf in *. unfold last_bytes in *.
    rewrite drop_drop. rewrite len_app in *.
    set (k := Z.to_nat (len (buf (fw s)) + len p - Limit (c (fw s)))) in *.
    assert (len (drop k (buf (fw s) ++ p))
            = len (buf (fw s)) + len p - Z.of_nat k) as Hlk.
    { unfold len. rewrite length_drop, length_app. unfold len in *. lia. }
    rewrite Hlk in Htail.
    destruct (len p <? Limit (c (fw s))) eqn:El.
    + apply Z.ltb_lt in El. rewrite Z.min_l in Htail by lia.
      rewrite drop_app_length'; [done |]. unfold len in *. lia.
    + apply Z.ltb_ge in El. rewrite Z.min_r in Htail by lia.
      rewrite drop_app_ge by (unfold len in *; lia).
      f_equal. unfold len in *. lia.
Qed.

Lemma Write_reaches_drained_reader_witness :
  closed (fw drained6) = false ∧ bytes 6 10 ≠ [] ∧
  0 ≤ Limit (c (fw drained6)) ∧ 0%nat ∈ clients (fw drained6) ∧
  heap drained6 !! 0%nat = Some (tail drained6) ∧
  ∃ s', fwriter_Write (bytes 6 10) drained6 = Ok (s', (10, None)) ∧
        unread s' 0%nat = bytes 10 6.
Proof.
  assert (Hin : 0%nat ∈ clients (fw drained6)) by (by vm_compute).
  split; [reflexivity |]. split; [discriminate |]. split; [discriminate |].
  split; [exact Hin |]. split; [reflexivity |].
  destruct (Write_reaches_drained_reader drained6 (bytes 6 10) 0%nat
              eq_refl
              (λ H : bytes 6 10 = [], eq_ind (bytes 6 10)
                 (λ l, match l with [] => False | _ :: _ => True end) I [] H)
              (λ H : (0 ?= 6) = Gt, eq_ind Lt
                 (λ x, match x with Gt => False | _ => True end) I Gt H)
              Hin eq_refl)
    as (s' & Hw & _ & _ & Hu).
  exists s'. split; [exact Hw |]. exact Hu.
Defined.

(** ** More about [NewReader] *)

(** X3: what a new reader has before it.  On an open writer the new reader
    has the whole buffer to read when ReadFromStart is on, and nothing when
    it is off: then its [Read] suspends and leaves the store alone, whatever
    the buffer holds.  With ReadFromStart on, a non-empty buffer and a
    non-empty destination, its first [Read] copies from the start of the
    buffer, moves the reader by the number of bytes copied and trims
    nothing. *)
Theorem NewReader_first_Read (s : store) :
  closed (fw s) = false →
  ∃ (r : ptr) (s' : store),
    fwriter_NewReader s = Ok (s', r) ∧
    unread s' r = (if ReadFromStart (c (fw s)) then buf (fw s) else []) ∧
    (ReadFromStart (c (fw s)) = false →
     ∀ q, client_Read r q s' = Ok (s', ReadWait)) ∧
    (ReadFromStart (c (fw s)) = true →
     ∀ q, q ≠ [] → buf (fw s) ≠ [] →
          client_Read r q s'
          = Ok (with_heap (<[ r := off (fw s) + (copy q (buf (fw s))).2 ]> (heap s')) s',
                ReadReturn (copy q (buf (fw s))).2 None (copy q (buf (fw s))).1)).
Proof.
  intros Hc. unfold fwriter_NewReader. rewrite Hc.
  set (r := fresh (dom (heap s))).
  eexists r, _. split; [reflexivity |].
  pose proof (len_nonneg (buf (fw s))) as Hb0.
  split; [| split].
  - unfold unread. simpl. rewrite lookup_insert_eq.
    destruct (ReadFromStart (c (fw s))); simpl.
    + by replace (off (fw s) - off (fw s)) with 0 by lia.
    + apply drop_ge. unfold len. lia.
  - intros Hr q. rewrite Hr. simpl.
    match goal with |- client_Read r q ?s1 = _ =>
      rewrite (Read_drained s1 r (off (fw s) + len (buf (fw s))) q)
    end.
    + simpl. by rewrite Hc.
    + simpl. by rewrite lookup_insert_eq.
    + reflexivity.
  - intros Hr q Hq Hbuf. rewrite Hr. simpl.
    assert (0 < len q) as Hq0.
    { destruct (decide (len q = 0)) as [E | E];
        [by apply len_nil_inv in E | pose proof (len_nonneg q); lia]. }
    assert (0 < len (buf (fw s))) as Hb1.
    { destruct (decide (len (buf (fw s)) = 0)) as [E | E];
        [by apply len_nil_inv in E | lia]. }
    match goal with |- client_Read r q ?s1 = _ =>
      rewrite (Read_runs_updateOff s1 r q (off (fw s)))
    end.
    + simpl. replace (off (fw s) - off (fw s)) with 0 by lia. simpl.
      rewrite updateOff_start by done. done.
    + simpl. by rewrite lookup_insert_eq.
    + simpl. lia.
    + cbn [fw heap set_clients off buf].
      replace (off (fw s) - off (fw s)) with 0 by lia.
      change (Z.to_nat 0) with 0%nat. rewrite drop_0.
      unfold copy. cbn [snd]. lia.
Qed.

Lemma NewReader_first_Read_witness :
  closed (fw one_reader_five_bytes) = false ∧
  ∃ (r : ptr) (s' : store),
    fwriter_NewReader one_reader_five_bytes = Ok (s', r) ∧
    unread s' r = [] ∧
    client_Read r (dst 10) s' = Ok (s', ReadWait).
Proof.
  split; [reflexivity |].
  destruct (NewReader_first_Read one_reader_five_bytes eq_refl)
    as (r & s' & Hn & Hu & Hw & _).
  exists r, s'. split; [exact Hn |]. split; [exact Hu |].
  exact (Hw eq_refl (dst 10)).
Defined.

(** ** What never goes back *)

Lemma advances_refl (s : store) : advances s s.
Proof.
  split; [done |]. split; [done |]. split; [lia |]. split; [lia |].
  intros r o Ho. exists o. split; [done | lia].
Qed.

Lemma advances_trans (s1 s2 s3 : store) :
  advances s1 s2 → advances s2 s3 → advances s1 s3.
Proof.
  intros (Hc1 & Hcl1 & Ho1 & Ht1 & Hh1) (Hc2 & Hcl2 & Ho2 & Ht2 & Hh2).
  split; [congruence |]. split; [tauto |]. split; [lia |]. split; [lia |].
  intros r o Ho. destruct (Hh1 r o Ho) as (o' & Ho' & Hle).
  destruct (Hh2 r o' Ho') as (o'' & Ho'' & Hle'). exists o''. split; [done | lia].
Qed.

Lemma advances_trimmed (j : Z) (s : store) :
  0 ≤ j ≤ len (buf (fw s)) → advances s (trimmed j s).
Proof.
  intros Hj. split; [done |]. split; [done |]. split; [simpl; lia |].
  split; [rewrite trimmed_tail by done; lia |].
  intros r o Ho. exists o. split; [done | lia].
Qed.

Lemma advances_delete (r : ptr) (s : store) : advances s (delete_client r s).
Proof.
  split; [done |]. split; [done |]. split; [simpl; lia |].
  split; [unfold tail; simpl; lia |].
  intros r' o Ho. exists o. split; [done | lia].
Qed.

Lemma advances_step (o : op) (s s' : store) (e : event) :
  step o s = Ok (s', e) → advances s s'.
Proof.
  intros Hstep. apply step_inv in Hstep.
  destruct o as [p | | | r q | r].
  - destruct Hstep as (n & err & Hw & _).
    apply Write_inv in Hw as (f' & -> & Hc & _ & Hcl & Hoff & Ht).
    split; [done |]. split; [simpl; congruence |]. split; [done |].
    split; [done |]. intros r o Ho. exists o. split; [done | lia].
  - destruct Hstep as [-> _].
    split; [done |]. split; [done |]. split; [simpl; lia |].
    split; [unfold tail; simpl; lia |].
    intros r o Ho. exists o. split; [done | lia].
  - destruct Hstep as (r & Hn & _).
    apply NewReader_inv in Hn as (_ & Hfresh & ->).
    split; [done |]. split; [done |]. split; [simpl; lia |].
    split; [unfold tail; simpl; lia |].
    intros r' o Ho. exists o. split; [| lia]. simpl.
    rewrite lookup_insert_ne; [done |]. intros ->. congruence.
  - destruct Hstep as (x & Hread & _). read_cases Hread;
      try apply advances_refl; try apply advances_delete.
    apply updateOff_inv in Hu as (j & Hj & -> & _).
    eapply advances_trans; [| by apply advances_trimmed].
    split; [done |]. split; [done |]. split; [simpl; lia |].
    split; [unfold tail; simpl; lia |].
    intros r' o Ho. simpl. rewrite lookup_insert.
    destruct (decide (r = r')) as [-> | Hne].
    + eexists. split; [reflexivity |].
      assert (o = coff) as -> by congruence.
      pose proof (copy_count_le q lbuf) as Hn. subst lbuf.
      unfold copy in *. simpl in *. lia.
    + exists o. split; [done | lia].
  - destruct Hstep as (err & Hc & _).
    apply Close_inv in Hc as (coff & Hr & _ & [[_ ->] | [_ Hu]]);
      [apply advances_delete |].
    apply updateOff_inv in Hu as (j & Hj & -> & _).
    eapply advances_trans; [apply advances_delete | by apply advances_trimmed].
Qed.

Lemma reachable_config (cfg : FanoutWriterConfig) (s : store) :
  reachable cfg s → c (fw s) = cfg.
Proof.
  intros (ops & evs & Hrun).
  apply (run_preserves (λ s, c (fw s) = cfg))
    with (ops := ops) (s := NewFanoutWriter cfg) (evs := evs);
    [| done | exact Hrun].
  intros o s1 s2 e H1 Hstep.
  destruct (advances_step o s1 s2 e Hstep) as (Hc & _). congruence.
Qed.

(** X4: nothing goes back.  Along every run that returns, whatever the mode
    and whoever calls: the configuration stays the one the writer was made
    with, a closed writer stays closed, [f.off] and the end of the buffer
    never decrease, and every client that was allocated stays allocated with
    an offset that never decreases. *)
Theorem run_advances (ops : list op) (s s' : store) (evs : list event) :
  run ops s = Ok (s', evs) → advances s s'.
Proof.
  intros Hrun.
  apply (run_preserves (advances s)) with (ops := ops) (s := s) (evs := evs);
    [| apply advances_refl | exact Hrun].
  intros o s1 s2 e H1 Hstep.
  eapply advances_trans; [exact H1 | by eapply advances_step].
Qed.

Lemma run_advances_witness :
  run [OpNewReader; OpWrite (bytes 1 5); OpWrite (bytes 6 5)]
      (NewFanoutWriter tail6)
  = Ok (stranded_store, [EvNewReader 0; EvWrite 5 None; EvWrite 5 None]) ∧
  advances (NewFanoutWriter tail6) stranded_store.
Proof.
  assert (Hrun : run [OpNewReader; OpWrite (bytes 1 5); OpWrite (bytes 6 5)]
                   (NewFanoutWriter tail6)
                 = Ok (stranded_store,
                       [EvNewReader 0; EvWrite 5 None; EvWrite 5 None]))
    by (by vm_compute).
  split; [exact Hrun |].
  exact (run_advances _ _ _ _ Hrun).
Defined.

(** ** The buffer stays within the limit *)

Lemma Write_within_limit (p : list byte) (s s' : store) (x : Z * option error) :
  0 < Limit (c (fw s)) → len (buf (fw s)) ≤ Limit (c (fw s)) →
  fwriter_Write p s = Ok (s', x) →
  len (buf (fw s')) ≤ Limit (c (fw s)).
Proof.
  intros Hlim Hlen. unfold fwriter_Write.
  pose proof (len_nonneg p) as Hp.
  destruct (len p =? 0); [by intros [= <- _] |].
  destruct (closed (fw s)); [by intros [= <- _] |].
  destruct (negb _ && _); [by intros [= <- _] |].
  rewrite eqb_false by lia. simpl.
  destruct (Limit (c (fw s)) >? len p) eqn:El.
  - destruct (_ >? 0) eqn:Ei.
    + destruct (slice_from _ _) as [bf | |] eqn:Hs; simpl; try done.
      intros [= <- _]. apply slice_from_inv in Hs as [Hj ->]. simpl.
      rewrite len_app, len_drop by done. lia.
    + rewrite Z.gtb_ltb in Ei. apply Z.ltb_ge in Ei.
      simpl. intros [= <- _]. simpl. rewrite len_app. lia.
  - destruct (slice_from _ _) as [bf | |] eqn:Hs; simpl; try done.
    intros [= <- _]. apply slice_from_inv in Hs as [Hj ->]. simpl.
    rewrite len_drop by done. lia.
Qed.

Lemma within_limit_step (cfg : FanoutWriterConfig) (o : op) (s s' : store)
    (e : event) :
  0 < Limit cfg →
  c (fw s) = cfg ∧ len (buf (fw s)) ≤ Limit cfg →
  step o s = Ok (s', e) →
  c (fw s') = cfg ∧ len (buf (fw s')) ≤ Limit cfg.
Proof.
  intros Hlim [Hc Hlen] Hstep.
  destruct (advances_step o s s' e Hstep) as (Hc' & _).
  split; [congruence |]. subst cfg.
  apply step_inv in Hstep.
  destruct o as [p | | | r q | r].
  - destruct Hstep as (n & err & Hw & _).
    by apply (Write_within_limit p s s' (n, err)).
  - by destruct Hstep as [-> _].
  - destruct Hstep as (r & Hn & _).
    by apply NewReader_inv in Hn as (_ & _ & ->).
  - destruct Hstep as (x & Hread & _). read_cases Hread; try done.
    apply updateOff_inv in Hu as (j & Hj & -> & _).
    simpl. rewrite len_drop by done. simpl in Hj. lia.
  - destruct Hstep as (err & Hcl & _).
    apply Close_inv in Hcl as (coff & Hr & _ & [[_ ->] | [_ Hu]]); [done |].
    apply updateOff_inv in Hu as (j & Hj & -> & _).
    simpl. rewrite len_drop by done. simpl in Hj. lia.
Qed.

(** X5: the limit bounds the buffer.  A writer made with a positive limit
    and an initial buffer no longer than the limit never holds more than
    [Limit] bytes, in any state any sequence of calls can reach. *)
Theorem buffer_within_limit (cfg : FanoutWriterConfig) (s : store) :
  0 < Limit cfg → len (Buf cfg) ≤ Limit cfg →
  reachable cfg s →
  len (buf (fw s)) ≤ Limit cfg.
Proof.
  intros Hlim Hbuf (ops & evs & Hrun).
  assert (c (fw s) = cfg ∧ len (buf (fw s)) ≤ Limit cfg) as [_ H]; [| exact H].
  apply (run_preserves (λ s, c (fw s) = cfg ∧ len (buf (fw s)) ≤ Limit cfg))
    with (ops := ops) (s := NewFanoutWriter cfg) (evs := evs);
    [| by split | exact Hrun].
  intros o s0 s1 e. by apply within_limit_step.
Qed.

Lemma buffer_within_limit_witness :
  0 < Limit tail6 ∧ len (Buf tail6) ≤ Limit tail6 ∧
  reachable tail6 stranded_store ∧
  len (buf (fw stranded_store)) ≤ 6.
Proof.
  split; [reflexivity |]. split; [discriminate |].
  split; [apply stranded_store_reachable |].
  exact (buffer_within_limit tail6 stranded_store eq_refl
           (λ H : (0 ?= 6) = Gt, eq_ind Lt
              (λ x, match x with Gt => False | _ => True end) I Gt H)
           stranded_store_reachable).
Defined.

(** ** More about trimming *)

Lemma offJump_loop_shift (foff j : Z) (offs : list Z) (init : Z) :
  offJump_loop (foff + j) offs (init - j) = offJump_loop foff offs init - j.
Proof.
  revert init. induction offs as [| o offs IH]; intros init; simpl; [done |].
  destruct (o - foff <? init) eqn:E.
  - apply Z.ltb_lt in E. rewrite ltb_true by lia.
    replace (o - (foff + j)) with (o - foff - j) by lia. apply IH.
  - apply Z.ltb_ge in E. rewrite ltb_false by lia. apply IH.
Qed.

Lemma updateOff_idem (s s' : store) :
  fwriter_updateOff s = Ok s' → fwriter_updateOff s' = Ok s'.
Proof.
  intros Hu. destruct (ReadFromStart (c (fw s))) eqn:Hr.
  - rewrite updateOff_start in Hu by done. injection Hu as <-.
    by apply updateOff_start.
  - revert Hu. unfold fwriter_updateOff at 1. rewrite Hr. simpl.
    destruct (client_offs s) as [offs | |] eqn:Hoffs; simpl; try done.
    destruct (slice_from _ _) as [bf | |] eqn:Hs; simpl; try done.
    intros [= <-]. apply slice_from_inv in Hs as [Hj ->].
    set (j := offJump_loop (off (fw s)) offs (len (buf (fw s)))) in *.
    destruct (offJump_loop_attained (off (fw s)) offs (len (buf (fw s))))
      as [Hat | (o & Hin & Hat)]; fold j in Hat.
    + unfold fwriter_updateOff. simpl. rewrite Hr. simpl.
      change (client_offs _) with (client_offs s). rewrite Hoffs. simpl.
      rewrite len_drop by done.
      replace (len (buf (fw s)) - j) with (len (buf (fw s)) - j) by done.
      rewrite offJump_loop_shift. fold j.
      replace (j - j) with 0 by lia.
      rewrite slice_from_ok by (rewrite len_drop by done; lia). simpl.
      by rewrite Z.add_0_r.
    + unfold fwriter_updateOff. simpl. rewrite Hr. simpl.
      change (client_offs _) with (client_offs s). rewrite Hoffs. simpl.
      rewrite len_drop by done. rewrite offJump_loop_shift. fold j.
      replace (j - j) with 0 by lia.
      rewrite slice_from_ok by (rewrite len_drop by done; lia). simpl.
      by rewrite Z.add_0_r.
Qed.

(** X6: trimming is safe and final.  When every registered reader is inside
    the window, [updateOff] returns; it changes no reader, no registration
    and not the end of the buffer, every registered reader has the same
    bytes left to read as before, and running it once more changes
    nothing. *)
Theorem updateOff_keeps_unread (s : store) :
  window_inv s →
  ∃ s', fwriter_updateOff s = Ok s' ∧
        heap s' = heap s ∧ clients (fw s') = clients (fw s) ∧
        closed (fw s') = closed (fw s) ∧ tail s' = tail s ∧
        (∀ r, r ∈ clients (fw s) → unread s' r = unread s r) ∧
        window_inv s' ∧
        fwriter_updateOff s' = Ok s'.
Proof.
  intros Hw. destruct (updateOff_window s Hw) as (j & Hu & Hj & Hle).
  exists (trimmed j s). split; [done |]. split; [done |]. split; [done |].
  split; [done |]. split; [by apply trimmed_tail |]. split.
  - intros r Hin. destruct (Hw r Hin) as (o & Ho & Hlo & _).
    apply (unread_trimmed s j r o Ho). specialize (Hle r o Hin Ho). lia.
  - split; [by apply window_inv_trimmed | by apply (updateOff_idem s)].
Qed.

Lemma two_readers_window : window_inv two_readers.
Proof.
  intros r Hin. change (r ∈ ({[ 0%nat; 1%nat ]} : gset ptr)) in Hin.
  apply elem_of_union in Hin as [Hin | Hin]; apply elem_of_singleton in Hin as ->.
  - exists 2. split; [reflexivity |]. vm_compute. split; discriminate.
  - exists 0. split; [reflexivity |]. vm_compute. split; discriminate.
Qed.

Lemma updateOff_keeps_unread_witness :
  window_inv two_readers ∧
  ∃ s', fwriter_updateOff two_readers = Ok s' ∧ tail s' = 5 ∧
        fwriter_updateOff s' = Ok s'.
Proof.
  split; [apply two_readers_window |].
  destruct (updateOff_keeps_unread two_readers two_readers_window)
    as (s' & Hu & _ & _ & _ & Ht & _ & _ & Hi).
  exists s'. split; [exact Hu |]. split; [exact Ht | exact Hi].
Defined.

(** X7: when trimming panics.  With ReadFromStart off and every registered
    client allocated, [updateOff] returns exactly when no registered reader
    is below [f.off]; when one is, it panics on [f.buf[offJump:]] with a
    negative [offJump]. *)
Theorem updateOff_returns_iff (s : store) :
  ReadFromStart (c (fw s)) = false →
  (∀ r, r ∈ clients (fw s) → is_Some (heap s !! r)) →
  ((∃ s', fwriter_updateOff s = Ok s') ↔
   (∀ r o, r ∈ clients (fw s) → heap s !! r = Some o → off (fw s) ≤ o)) ∧
  ((∃ j, j < 0 ∧ fwriter_updateOff s = Panic (SliceBounds j (len (buf (fw s))))) ↔
   (∃ r o, r ∈ clients (fw s) ∧ heap s !! r = Some o ∧ o < off (fw s))).
Proof.
  intros Hr Halloc.
  assert (Hgood : (∀ r o, r ∈ clients (fw s) → heap s !! r = Some o →
                          off (fw s) ≤ o) →
                  ∃ s', fwriter_updateOff s = Ok s').
  { intros Hall. destruct (updateOff_tail s Hr) as (j & Hu & _).
    - intros r Hin. destruct (Halloc r Hin) as [o Ho]. exists o.
      split; [done | by apply (Hall r)].
    - by eexists. }
  assert (Hbad : (∃ r o, r ∈ clients (fw s) ∧ heap s !! r = Some o ∧
                         o < off (fw s)) →
                 ∃ j, j < 0 ∧
                      fwriter_updateOff s = Panic (SliceBounds j (len (buf (fw s))))).
  { intros (r & o & Hin & Ho & Hlt). by apply (updateOff_panics s r o). }
  split; split.
  - intros [s' Hu] r o Hin Ho.
    destruct (decide (off (fw s) ≤ o)) as [| Hn]; [done |].
    destruct Hbad as (j & _ & Hp); [exists r, o; split_and!; [done | done | lia] |].
    congruence.
  - exact Hgood.
  - intros (j & Hj & Hp).
    destruct (client_offs_total s Halloc) as [offs Hoffs].
    unfold fwriter_updateOff in Hp. rewrite Hr, Hoffs in Hp. simpl in Hp.
    pose proof (offJump_loop_le_init (off (fw s)) offs (len (buf (fw s)))) as Hle.
    pose proof (len_nonneg (buf (fw s))) as Hb0.
    destruct (decide (0 ≤ offJump_loop (off (fw s)) offs (len (buf (fw s)))))
      as [Hpos | Hneg].
    { rewrite slice_from_ok in Hp by lia. discriminate Hp. }
    destruct (offJump_loop_attained (off (fw s)) offs (len (buf (fw s))))
      as [Hat | (o & Hin & Hat)]; [lia |].
    apply (client_offs_elem s offs o Hoffs) in Hin as (r & Hin & Ho).
    exists r, o. split; [done |]. split; [done | lia].
  - exact Hbad.
Qed.

Lemma updateOff_returns_iff_witness :
  ReadFromStart (c (fw stranded_store)) = false ∧
  (∀ r, r ∈ clients (fw stranded_store) → is_Some (heap stranded_store !! r)) ∧
  ∃ j, j < 0 ∧
       fwriter_updateOff stranded_store
       = Panic (SliceBounds j (len (buf (fw stranded_store)))).
Proof.
  assert (Halloc : ∀ r, r ∈ clients (fw stranded_store) →
                        is_Some (heap stranded_store !! r)).
  { intros r Hin. change (r ∈ ({[ 0%nat ]} : gset ptr)) in Hin.
    apply elem_of_singleton in Hin as ->. by exists 0. }
  split; [reflexivity |]. split; [exact Halloc |].
  apply (proj2 (updateOff_returns_iff stranded_store eq_refl Halloc)).
  exists 0%nat, 0. split; [by vm_compute |]. split; reflexivity.
Defined.

(** ** More about the reader's [Close] *)

Lemma delete_client_twice (r : ptr) (s : store) :
  delete_client r (delete_client r s) = delete_client r s.
Proof.
  unfold delete_client, with_fw, set_clients. simpl.
  by rewrite difference_twice_L.
Qed.

(** X8: closing a reader twice.  If [Close] of a reader returns, it returns
    [nil], the reader is no longer registered, no offset has changed, the
    writer is neither closed nor reopened by it, the end of the buffer is
    where it was, and a second [Close] of the same reader returns [nil] and
    changes nothing. *)
Theorem client_Close_twice (r : ptr) (s s' : store) (e : option error) :
  client_Close r s = Ok (s', e) →
  e = None ∧
  (r ∉ clients (fw s')) ∧
  (∀ r', r' ≠ r → (r' ∈ clients (fw s') ↔ r' ∈ clients (fw s))) ∧
  heap s' = heap s ∧ closed (fw s') = closed (fw s) ∧ tail s' = tail s ∧
  client_Close r s' = Ok (s', None).
Proof.
  intros Hc.
  assert (Hnot : ∀ s0, r ∉ clients (fw (delete_client r s0))).
  { intros s0. simpl. rewrite elem_of_difference, elem_of_singleton. tauto. }
  assert (Hothers : ∀ s0 r', r' ≠ r →
            (r' ∈ clients (fw (delete_client r s0)) ↔ r' ∈ clients (fw s0))).
  { intros s0 r' Hne. simpl. rewrite elem_of_difference, elem_of_singleton. tauto. }
  apply Close_inv in Hc as (coff & Hr & -> & [[Hne ->] | [Heq Hu]]).
  - split; [done |]. split; [apply Hnot |]. split; [apply Hothers |].
    split; [done |]. split; [done |]. split; [done |].
    destruct (Close_runs_updateOff (delete_client r s) r coff Hr) as [_ H].
    rewrite H by done. by rewrite delete_client_twice.
  - pose proof (updateOff_idem _ _ Hu) as Hidem.
    apply updateOff_inv in Hu as (j & Hj & -> & _).
    split; [done |]. split; [apply Hnot |]. split; [apply Hothers |].
    split; [done |]. split; [done |].
    split; [rewrite trimmed_tail by done; done |].
    assert (delete_client r (trimmed j (delete_client r s))
            = trimmed j (delete_client r s)) as Hdel.
    { unfold delete_client, trimmed, with_fw, set_clients, set_off, set_buf.
      simpl. by rewrite difference_twice_L. }
    destruct (Close_runs_updateOff (trimmed j (delete_client r s)) r coff Hr)
      as [Hrun Hskip].
    destruct (decide (coff = off (fw (trimmed j (delete_client r s)))))
      as [E | E].
    + rewrite (Hrun E), Hdel, Hidem. done.
    + rewrite (Hskip E), Hdel. done.
Qed.

Lemma client_Close_twice_witness :
  client_Close 0%nat two_readers = Ok (delete_client 0%nat two_readers, None) ∧
  client_Close 0%nat (delete_client 0%nat two_readers)
  = Ok (delete_client 0%nat two_readers, None).
Proof.
  assert (H : client_Close 0%nat two_readers
              = Ok (delete_client 0%nat two_readers, None)) by reflexivity.
  split; [exact H |].
  destruct (client_Close_twice 0%nat two_readers _ _ H)
    as (_ & _ & _ & _ & _ & _ & H2).
  exact H2.
Defined.

(** ** More about [Read] *)

(** X9: when [Read] suspends.  One run of the loop body of [Read] ends in
    [update.Wait()] exactly when the reader's offset is the end of the
    buffer and the writer is not closed, and then the store is as it was:
    [Read] never waits while a byte is available, however short the
    destination, and never after the writer's [Close]. *)
Theorem Read_waits_iff (r : ptr) (q : list byte) (s s' : store) :
  client_Read r q s = Ok (s', ReadWait) ↔
  s' = s ∧ heap s !! r = Some (tail s) ∧ closed (fw s) = false.
Proof.
  split.
  - intros H. apply Read_inv in H.
    inversion H as [coff Hr Hout | coff Hr Ht Hs Hx | coff Hr Hin Hq
                   | coff s1 Hr Hin Hq lbuf Hu]; subst.
    destruct (closed (fw s')) eqn:Hc; [discriminate |]. done.
  - intros (-> & Hr & Hc).
    by rewrite (Read_drained s r (tail s) q Hr eq_refl), Hc.
Qed.

Lemma Read_waits_iff_witness :
  heap drained6 !! 0%nat = Some (tail drained6) ∧
  closed (fw drained6) = false ∧
  client_Read 0%nat (dst 10) drained6 = Ok (drained6, ReadWait).
Proof.
  split; [reflexivity |]. split; [reflexivity |].
  exact (proj2 (Read_waits_iff 0%nat (dst 10) drained6 drained6)
           (conj eq_refl (conj eq_refl eq_refl))).
Defined.

Lemma Read_in_window (s : store) (r : ptr) (q : list byte) :
  window_inv s → r ∈ clients (fw s) →
  ∃ s' x,
    client_Read r q s = Ok (s', x) ∧
    (∀ n p', x ≠ ReadReturn n (Some ErrFellBehind) p') ∧
    delivered r (EvRead r x) = take (length q) (unread s r) ∧
    unread s' r = drop (length q) (unread s r) ∧
    (∀ r', r' ≠ r → r' ∈ clients (fw s) → unread s' r' = unread s r') ∧
    (∀ r', r' ≠ r → heap s' !! r' = heap s !! r') ∧
    clients (fw s') = clients (fw s) ∧
    closed (fw s') = closed (fw s) ∧
    tail s' = tail s ∧
    window_inv s'.
Proof.
  intros Hw Hin. destruct (Hw r Hin) as (o & Ho & Hlo & Hhi).
  destruct (decide (o = tail s)) as [Htail | Hlt].
  { (* nothing left *)
    exists s, (if closed (fw s) then ReadReturn 0 (Some EOF) q else ReadWait).
    split; [by apply (Read_drained s r o q) |].
    assert (unread s r = []) as Hun by (by apply (unread_drained s r o)).
    rewrite Hun, take_nil, drop_nil.
    split; [by destruct (closed (fw s)) |].
    split; [| done].
    destruct (closed (fw s)); simpl; by rewrite ?decide_True. }
  destruct q as [| q0 q].
  { (* no room *)
    exists s, (ReadReturn 0 None []).
    split; [apply (Read_nothing s r o Ho); lia |].
    split; [done |]. simpl. rewrite decide_True by done. by rewrite drop_0. }
  set (lbuf := drop (Z.to_nat (o - off (fw s))) (buf (fw s))).
  assert (len lbuf = len (buf (fw s)) - (o - off (fw s))) as Hl
    by (apply len_drop; unfold tail in *; lia).
  pose proof (copy_count_le (q0 :: q) lbuf) as Hn.
  assert (0 < (copy (q0 :: q) lbuf).2) as Hn0.
  { assert (0 < len (q0 :: q)) by (unfold len; simpl; lia).
    unfold copy. cbn [snd]. unfold tail in *. lia. }
  set (n := (copy (q0 :: q) lbuf).2) in *.
  set (s1 := with_heap (<[ r := o + n ]> (heap s)) s).
  assert (window_inv s1) as Hw1.
  { apply window_inv_advance; unfold tail in *; try done; lia. }
  destruct (updateOff_window s1 Hw1) as (j & Hu & Hj & Hjle).
  exists (trimmed j s1), (ReadReturn n None (copy (q0 :: q) lbuf).1).
  assert (heap s1 !! r = Some (o + n)) as Ho1
    by (simpl; by rewrite lookup_insert_eq).
  split.
  { rewrite (Read_runs_updateOff s r (q0 :: q) o Ho);
      [| unfold tail in *; lia | exact Hn0].
    fold lbuf n s1. by rewrite Hu. }
  split; [done |]. split.
  { simpl. rewrite decide_True by done.
    unfold n. rewrite take_copy. unfold unread. by rewrite Ho. }
  split.
  { rewrite (unread_trimmed s1 j r (o + n) Ho1).
    2:{ specialize (Hjle r (o + n) Hin Ho1).
        change (fw s1) with (fw s) in *. lia. }
    unfold unread. rewrite Ho1, Ho. simpl. fold lbuf.
    unfold lbuf at 1. rewrite drop_drop.
    destruct (decide (length (q0 :: q) ≤ length lbuf)%nat) as [Hle | Hgt].
    - f_equal.
      assert (n = Z.of_nat (S (length q))) as ->; [| lia].
      subst n. unfold copy, len. cbn [snd length] in *. lia.
    - assert (n = len lbuf) as Hnl.
      { subst n. unfold copy, len. cbn [snd length] in *. lia. }
      assert (length lbuf = (length (buf (fw s)) - Z.to_nat (o - off (fw s)))%nat)
        as Hll by (unfold lbuf; apply length_drop).
      cbn [length] in Hgt.
      rewrite !drop_ge; [done | lia |]. unfold len, tail in *. lia. }
  split.
  { intros r' Hne Hin'. destruct (Hw r' Hin') as (o' & Ho' & _).
    assert (heap s1 !! r' = Some o') as Ho1'
      by (simpl; by rewrite lookup_insert_ne).
    rewrite (unread_trimmed s1 j r' o' Ho1').
    2:{ specialize (Hjle r' o' Hin' Ho1').
        change (fw s1) with (fw s) in *. destruct (Hw r' Hin') as (? & ? & ? & _).
        simplify_eq. lia. }
    unfold unread. by rewrite Ho1', Ho'. }
  split.
  { intros r' Hne. simpl. by rewrite lookup_insert_ne. }
  split; [done |]. split; [done |].
  split; [by rewrite trimmed_tail |].
  by apply window_inv_trimmed.
Qed.

(** X10: one reader's [Read] and the others.  Every registered reader is
    inside the window and [r] is one of them.  Then [Read] on [r] returns
    without a panic and without [ErrFellBehind]; it gives [r] the first
    [len(q)] bytes it had left (all of them if fewer) and leaves the rest
    waiting; every other registered reader has exactly the bytes left that
    it had before, and no other client's offset, no registration, not the
    closed flag and not the end of the buffer change. *)
Theorem Read_registered (s : store) (r : ptr) (q : list byte) :
  window_inv s → r ∈ clients (fw s) →
  ∃ s' x,
    client_Read r q s = Ok (s', x) ∧
    (∀ n p', x ≠ ReadReturn n (Some ErrFellBehind) p') ∧
    delivered r (EvRead r x) = take (length q) (unread s r) ∧
    unread s' r = drop (length q) (unread s r) ∧
    (∀ r', r' ≠ r → r' ∈ clients (fw s) → unread s' r' = unread s r') ∧
    (∀ r', r' ≠ r → heap s' !! r' = heap s !! r') ∧
    clients (fw s') = clients (fw s) ∧
    closed (fw s') = closed (fw s) ∧
    tail s' = tail s ∧
    window_inv s'.
Proof. apply Read_in_window. Qed.

Lemma Read_registered_witness :
  window_inv two_readers ∧ 1%nat ∈ clients (fw two_readers) ∧
  ∃ s' x, client_Read 1%nat (dst 3) two_readers = Ok (s', x) ∧
          delivered 1%nat (EvRead 1%nat x) = bytes 1 3 ∧
          unread s' 1%nat = bytes 4 2 ∧
          unread s' 0%nat = bytes 3 3.
Proof.
  assert (H1 : 1%nat ∈ clients (fw two_readers)) by (by vm_compute).
  assert (H0 : 0%nat ∈ clients (fw two_readers)) by (by vm_compute).
  split; [apply two_readers_window |]. split; [exact H1 |].
  destruct (Read_registered two_readers 1%nat (dst 3) two_readers_window H1)
    as (s' & x & Hread & _ & Hd & Hu & Hothers & _).
  exists s', x. split; [exact Hread |]. split; [exact Hd |].
  split; [exact Hu |].
  exact (Hothers 0%nat (λ H : 0%nat = 1%nat, eq_ind 0%nat
           (λ n, match n with O => True | S _ => False end) I 1%nat H) H0).
Defined.

(** ** Without a limit: nothing is kept for nobody, nothing is lost *)

Lemma updateOff_base_held (s s' : store) :
  ReadFromStart (c (fw s)) = false → window_inv s →
  fwriter_updateOff s = Ok s' → base_held s'.
Proof.
  intros Hr Hw Hu.
  apply updateOff_inv in Hu as (j & Hj & -> & Hmin & _).
  destruct (Hmin Hr) as (_ & Hle & Hat). split.
  - intros Hnone. simpl in *.
    destruct Hat as [-> | (r & o & Hin & _)]; [| by destruct (Hnone r)].
    apply drop_ge. unfold len. lia.
  - intros r Hin. simpl in *.
    destruct Hat as [-> | (r0 & o0 & Hin0 & Ho0 & ->)].
    + destruct (Hw r Hin) as (o & Ho & Hlo & Hhi).
      specialize (Hle r o Hin Ho). unfold tail in Hhi.
      exists r. split; [done |]. rewrite Ho. f_equal. lia.
    + exists r0. split; [done |]. rewrite Ho0. f_equal. lia.
Qed.

Lemma base_held_step (o : op) (s s' : store) (e : event) :
  (ReadFromStart (c (fw s)) = false ∧ Limit (c (fw s)) = 0) ∧
  window_inv s ∧ base_held s →
  step o s = Ok (s', e) →
  (ReadFromStart (c (fw s')) = false ∧ Limit (c (fw s')) = 0) ∧
  window_inv s' ∧ base_held s'.
Proof.
  intros ([Hrfs Hl] & Hw & Hnone & Hsome) Hstep.
  destruct (advances_step o s s' e Hstep) as (Hc & _).
  destruct (window_inv_step_unbounded o s s' e (conj Hl Hw) Hstep) as [_ Hw'].
  split; [by rewrite Hc |]. split; [done |].
  apply step_inv in Hstep.
  destruct o as [p | | | r q | r].
  - destruct Hstep as (n & err & Hwr & _).
    destruct (set_choose_or_empty (clients (fw s))) as [[r0 Hr0] | Hempty].
    + apply (Write_unbounded_inv p s s' _ Hl) in Hwr as [-> | ->]; [by split |].
      split; [intros H; by destruct (H r0) | exact Hsome].
    + revert Hwr. unfold fwriter_Write. rewrite Hrfs.
      apply size_empty_iff in Hempty. rewrite Hempty. simpl.
      destruct (len p =? 0); [intros [= <- _]; by split |].
      destruct (closed (fw s)); intros [= <- _]; by split.
  - destruct Hstep as [-> _]. by split.
  - destruct Hstep as (r & Hn & _).
    apply NewReader_inv in Hn as (_ & Hfresh & ->). rewrite Hrfs. split.
    + intros H. simpl in H. destruct (H r).
      apply elem_of_union_l. by apply elem_of_singleton.
    + intros rr _. simpl.
      destruct (set_choose_or_empty (clients (fw s))) as [[r0 Hr0] | Hempty].
      * destruct (Hsome r0 Hr0) as (r1 & Hr1 & Ho1).
        exists r1. split; [by apply elem_of_union_r |].
        rewrite lookup_insert_ne; [done |]. intros ->. congruence.
      * exists r. split; [apply elem_of_union_l; by apply elem_of_singleton |].
        rewrite lookup_insert_eq. rewrite Hnone.
        -- change (len []) with 0. by rewrite Z.add_0_r.
        -- intros r0 Hr0. apply Hempty in Hr0. by apply not_elem_of_empty in Hr0.
  - destruct Hstep as (x & Hread & _). read_cases Hread; try by split.
    + (* fell behind: the client was not registered *)
      assert (r ∉ clients (fw s)) as Hnot.
      { intros Hin. destruct (Hw r Hin) as (o & Ho & Hlo & Hhi).
        simplify_eq. lia. }
      split.
      * intros H. apply Hnone. intros r0 Hr0. apply (H r0). simpl.
        apply elem_of_difference. split; [done |].
        rewrite elem_of_singleton. by intros ->.
      * intros r0 Hr0. simpl in Hr0. apply elem_of_difference in Hr0 as [Hr0 _].
        destruct (Hsome r0 Hr0) as (r1 & Hr1 & Ho1). exists r1. split; [| done].
        simpl. apply elem_of_difference. split; [done |].
        rewrite elem_of_singleton. by intros ->.
    + apply (updateOff_base_held
               (with_heap (<[ r := coff + (copy q lbuf).2 ]> (heap s)) s) s1 Hrfs);
        [| done].
      pose proof (copy_count_le q lbuf) as Hn.
      assert (len lbuf = len (buf (fw s)) - (coff - off (fw s))) as Hlb.
      { apply len_drop. unfold tail in Hin. lia. }
      apply window_inv_advance; try done; unfold tail in *; lia.
  - destruct Hstep as (err & Hcl & _).
    apply Close_inv in Hcl as (coff & Hrr & _ & [[Hne ->] | [_ Hu]]).
    + split.
      * intros H.
        destruct (set_choose_or_empty (clients (fw s))) as [[r0 Hr0] | Hempty].
        -- destruct (Hsome r0 Hr0) as (r1 & Hr1 & Ho1).
           destruct (H r1). simpl. apply elem_of_difference. split; [done |].
           rewrite elem_of_singleton. intros ->. congruence.
        -- apply Hnone. intros r0 Hr0. apply Hempty in Hr0.
           by apply not_elem_of_empty in Hr0.
      * intros r0 Hr0. simpl in Hr0. apply elem_of_difference in Hr0 as [Hr0 _].
        destruct (Hsome r0 Hr0) as (r1 & Hr1 & Ho1). exists r1. split; [| done].
        simpl. apply elem_of_difference. split; [done |].
        rewrite elem_of_singleton. intros ->. congruence.
    + apply (updateOff_base_held (delete_client r s) s' Hrfs); [| done].
      by apply window_inv_delete.
Qed.

(** X11: nothing is kept for nobody.  A writer made without a limit, with
    ReadFromStart off and an empty initial buffer holds no byte whenever no
    reader is registered, in any state any sequence of calls can reach; in
    particular the buffer is released when the last reader closes. *)
Theorem unbounded_idle_buffer_empty (cfg : FanoutWriterConfig) (s : store) :
  Limit cfg = 0 → ReadFromStart cfg = false → Buf cfg = [] →
  reachable cfg s →
  clients (fw s) = ∅ →
  buf (fw s) = [].
Proof.
  intros Hl Hr Hb (ops & evs & Hrun) Hempty.
  assert ((ReadFromStart (c (fw s)) = false ∧ Limit (c (fw s)) = 0) ∧
          window_inv s ∧ base_held s) as (_ & _ & Hnone & _).
  { apply (run_preserves
             (λ s, (ReadFromStart (c (fw s)) = false ∧ Limit (c (fw s)) = 0) ∧
                   window_inv s ∧ base_held s) base_held_step)
      with (ops := ops) (s := NewFanoutWriter cfg) (evs := evs);
      [| exact Hrun].
    split; [by split |]. split.
    - intros r Hin. simpl in Hin. by apply not_elem_of_empty in Hin.
    - split; [by intros _ |].
      intros r Hin. simpl in Hin. by apply not_elem_of_empty in Hin. }
  apply Hnone. intros r. rewrite Hempty. apply not_elem_of_empty.
Qed.

Lemma unbounded_idle_buffer_empty_witness :
  ∃ s evs,
    run [OpNewReader; OpNewReader; OpWrite (bytes 1 5); OpRead 0%nat (dst 2);
         OpReaderClose 1%nat; OpReaderClose 0%nat]
        NewDefaultFanoutWriter = Ok (s, evs) ∧
    clients (fw s) = ∅ ∧ buf (fw s) = [].
Proof.
  assert (Hrun : ∃ s evs,
            run [OpNewReader; OpNewReader; OpWrite (bytes 1 5);
                 OpRead 0%nat (dst 2); OpReaderClose 1%nat; OpReaderClose 0%nat]
                NewDefaultFanoutWriter = Ok (s, evs) ∧
            clients (fw s) = ∅).
  { eexists _, _. split; [by vm_compute | by vm_compute]. }
  destruct Hrun as (s & evs & Hrun & Hempty).
  exists s, evs. split; [exact Hrun |]. split; [exact Hempty |].
  apply (unbounded_idle_buffer_empty
           (Build_FanoutWriterConfig [] 0 false) s eq_refl eq_refl eq_refl);
    [| exact Hempty].
  by eexists _, _.
Defined.

Lemma unread_append (s : store) (r : ptr) (p : list byte) :
  window_inv s → r ∈ clients (fw s) →
  unread (with_fw (set_buf (buf (fw s) ++ p) (fw s)) s) r = unread s r ++ p.
Proof.
  intros Hw Hin. destruct (Hw r Hin) as (o & Ho & Hlo & Hhi).
  unfold unread. simpl. rewrite Ho. apply drop_app_le.
  unfold tail, len in *. lia.
Qed.

Lemma conservation_step (r : ptr) (o : op) (s s' : store) (e : event) :
  Limit (c (fw s)) = 0 → window_inv s → r ∈ clients (fw s) →
  o ≠ OpReaderClose r →
  step o s = Ok (s', e) →
  r ∈ clients (fw s') ∧
  delivered r e ++ unread s' r = unread s r ++ taken o e.
Proof.
  intros Hl Hw Hreg Hnot Hstep.
  destruct (Hw r Hreg) as (ro & Hro & Hrlo & Hrhi).
  apply step_inv in Hstep.
  destruct o as [p | | | r' q | r'].
  - destruct Hstep as (n & err & Hwr & ->). revert Hwr.
    unfold fwriter_Write. rewrite Hl, (registered_size s r Hreg), andb_false_r.
    simpl.
    destruct (len p =? 0) eqn:E0.
    { intros [= <- <- <-]. apply Z.eqb_eq, len_nil_inv in E0. subst p.
      by rewrite app_nil_r. }
    destruct (closed (fw s)).
    { intros [= <- <- <-]. by rewrite app_nil_r. }
    intros [= <- <- <-]. split; [done |]. simpl. by apply unread_append.
  - destruct Hstep as [-> ->]. split; [done |]. simpl. by rewrite app_nil_r.
  - destruct Hstep as (r' & Hn & ->).
    apply NewReader_inv in Hn as (_ & Hfresh & ->). simpl.
    split; [by apply elem_of_union_r |]. rewrite app_nil_r.
    unfold unread. simpl. rewrite lookup_insert_ne; [done |].
    intros ->. congruence.
  - destruct Hstep as (x & Hread & ->).
    destruct (decide (r' = r)) as [-> | Hne].
    + destruct (Read_in_window s r q Hw Hreg)
        as (s1 & x1 & Hread1 & _ & Hd & Hu & _ & _ & Hcl & _).
      rewrite Hread1 in Hread. injection Hread as <- <-.
      split; [by rewrite Hcl |].
      simpl taken. rewrite app_nil_r, Hd, Hu. apply take_drop.
    + assert (delivered r (EvRead r' x) = []) as ->.
      { simpl. destruct x; [| done]. by rewrite decide_False. }
      simpl. rewrite app_nil_r.
      read_cases Hread; try by split.
      * split; [| done]. simpl. apply elem_of_difference. split; [done |].
        rewrite elem_of_singleton. congruence.
      * pose proof (copy_count_le q lbuf) as Hn.
        assert (len lbuf = len (buf (fw s)) - (coff - off (fw s))) as Hlb.
        { apply len_drop. unfold tail in Hin. lia. }
        set (s2 := with_heap (<[ r' := coff + (copy q lbuf).2 ]> (heap s)) s) in *.
        assert (window_inv s2) as Hw2.
        { apply window_inv_advance; try done; unfold tail in *; lia. }
        destruct (updateOff_window s2 Hw2) as (j & Hu' & Hj & Hjle).
        rewrite Hu' in Hu. injection Hu as <-.
        split; [done |].
        assert (heap s2 !! r = Some ro) as Hro2
          by (simpl; by rewrite lookup_insert_ne).
        rewrite (unread_trimmed s2 j r ro Hro2).
        2:{ specialize (Hjle r ro Hreg Hro2). change (fw s2) with (fw s) in *. lia. }
        unfold unread. by rewrite Hro2, Hro.
  - destruct Hstep as (err & Hcl & ->).
    assert (r' ≠ r) as Hne by congruence.
    assert (r ∈ clients (fw (delete_client r' s))) as Hin1.
    { simpl. apply elem_of_difference. split; [done |].
      rewrite elem_of_singleton. congruence. }
    simpl. rewrite app_nil_r.
    apply Close_inv in Hcl as (coff & Hr' & _ & [[_ ->] | [_ Hu]]); [by split |].
    pose proof (window_inv_delete s r' Hw) as Hw1.
    destruct (updateOff_window _ Hw1) as (j & Hu' & Hj & Hjle).
    rewrite Hu' in Hu. injection Hu as <-.
    split; [done |].
    rewrite (unread_trimmed (delete_client r' s) j r ro Hro); [done |].
    specialize (Hjle r ro Hin1 Hro).
    change (fw (delete_client r' s))
      with (set_clients (clients (fw s) ∖ {[ r' ]}) (fw s)) in *.
    simpl in *. lia.
Qed.

(** X12: without a limit nothing is lost and nothing comes twice.  The
    writer has no limit, every registered reader is inside the window and
    [r] is one of them.  Along any run that returns and does not close [r],
    whoever else writes, reads, registers or closes: the bytes handed to
    [r], followed by the bytes still waiting for it at the end, are the
    bytes that were waiting for it at the start followed by everything
    [Write] accepted in between, in that order. *)
Theorem stream_conservation (r : ptr) (ops : list op) :
  ∀ (s s' : store) (evs : list event),
    Limit (c (fw s)) = 0 → window_inv s → r ∈ clients (fw s) →
    Forall (λ o, o ≠ OpReaderClose r) ops →
    run ops s = Ok (s', evs) →
    received r evs ++ unread s' r = unread s r ++ accepted ops evs.
Proof.
  induction ops as [| o ops IH]; intros s s' evs Hl Hw Hin Hops Hrun.
  - simpl in Hrun. simplify_eq. simpl. by rewrite app_nil_r.
  - apply Forall_cons in Hops as [Ho Hops].
    apply run_cons_inv in Hrun as (s1 & e & es & Hstep & Hrest & ->).
    destruct (conservation_step r o s s1 e Hl Hw Hin Ho Hstep) as [Hin1 Heq].
    destruct (window_inv_step_unbounded o s s1 e (conj Hl Hw) Hstep) as [Hl1 Hw1].
    specialize (IH s1 s' es Hl1 Hw1 Hin1 Hops Hrest).
    cbn [received accepted].
    rewrite <- !app_assoc, IH, !app_assoc. by rewrite Heq.
Qed.

Lemma stream_conservation_witness :
  Limit (c (fw two_readers)) = 0 ∧ window_inv two_readers ∧
  1%nat ∈ clients (fw two_readers) ∧
  ∃ s' evs,
    run [OpRead 1%nat (dst 3); OpWrite (bytes 6 2); OpRead 0%nat (dst 9);
         OpWrite (bytes 8 1)] two_readers = Ok (s', evs) ∧
    received 1%nat evs = bytes 1 3 ∧ unread s' 1%nat = bytes 4 5.
Proof.
  assert (H1 : 1%nat ∈ clients (fw two_readers)) by (by vm_compute).
  split; [reflexivity |]. split; [apply two_readers_window |].
  split; [exact H1 |].
  assert (Hrun : ∃ s' evs,
            run [OpRead 1%nat (dst 3); OpWrite (bytes 6 2); OpRead 0%nat (dst 9);
                 OpWrite (bytes 8 1)] two_readers = Ok (s', evs) ∧
            received 1%nat evs = bytes 1 3).
  { eexists _, _. split; by vm_compute. }
  destruct Hrun as (s' & evs & Hrun & Hrec).
  exists s', evs. split; [exact Hrun |]. split; [exact Hrec |].
  assert (Hops : Forall (λ o, o ≠ OpReaderClose 1%nat)
            [OpRead 1%nat (dst 3); OpWrite (bytes 6 2); OpRead 0%nat (dst 9);
             OpWrite (bytes 8 1)]).
  { repeat constructor; discriminate. }
  pose proof (stream_conservation 1%nat _ two_readers s' evs eq_refl
                two_readers_window H1 Hops Hrun) as Hcons.
  rewrite Hrec in Hcons.
  assert (Hacc : unread two_readers 1%nat ++
                 accepted [OpRead 1%nat (dst 3); OpWrite (bytes 6 2);
                           OpRead 0%nat (dst 9); OpWrite (bytes 8 1)] evs
                 = bytes 1 3 ++ bytes 4 5).
  { revert Hrun. vm_compute. intros [= <- <-]. reflexivity. }
  rewrite Hacc in Hcons. by apply app_inv_head in Hcons.
Defined.

(** X13: without a limit the calls return.  In every state a writer made
    without a limit can reach, [Write] returns, [Read] on a registered
    reader returns without a panic and never with [ErrFellBehind], and
    [Close] on any client returns [nil]: the panic of the trimming step and
    the fall-behind error need a limit. *)
Theorem unbounded_calls_return (cfg : FanoutWriterConfig) (s : store) :
  Limit cfg = 0 → reachable cfg s →
  (∀ p, ∃ s' n err, fwriter_Write p s = Ok (s', (n, err))) ∧
  (∀ r q, r ∈ clients (fw s) →
          ∃ s' x, client_Read r q s = Ok (s', x) ∧
                  ∀ n p', x ≠ ReadReturn n (Some ErrFellBehind) p') ∧
  (∀ r, is_Some (heap s !! r) → ∃ s', client_Close r s = Ok (s', None)).
Proof.
  intros Hl Hreach.
  pose proof (reachable_window_unbounded cfg s Hl Hreach) as Hw.
  assert (Limit (c (fw s)) = 0) as Hls.
  { by rewrite (reachable_config cfg s Hreach). }
  split; [| split].
  - intros p. unfold fwriter_Write. rewrite Hls. simpl.
    destruct (len p =? 0); [by eexists _, _, _ |].
    destruct (closed (fw s)); [by eexists _, _, _ |].
    destruct (negb _ && _); by eexists _, _, _.
  - intros r q Hin.
    destruct (Read_in_window s r q Hw Hin) as (s' & x & Hread & Hx & _).
    by exists s', x.
  - intros r [o Ho].
    destruct (Close_runs_updateOff s r o Ho) as [Hrun Hskip].
    destruct (decide (o = off (fw s))) as [E | E].
    + destruct (updateOff_window _ (window_inv_delete s r Hw)) as (j & Hu & _).
      eexists. by rewrite (Hrun E), Hu.
    + eexists. by rewrite (Hskip E).
Qed.

Lemma two_readers_reachable :
  reachable (Build_FanoutWriterConfig [] 0 false) two_readers.
Proof.
  exists [OpNewReader; OpNewReader; OpWrite (bytes 1 5); OpRead 0%nat (dst 2)].
  eexists. vm_compute. reflexivity.
Qed.

Lemma unbounded_calls_return_witness :
  Limit (Build_FanoutWriterConfig [] 0 false) = 0 ∧
  reachable (Build_FanoutWriterConfig [] 0 false) two_readers ∧
  ∃ s', client_Close 1%nat two_readers = Ok (s', None).
Proof.
  split; [reflexivity |]. split; [apply two_readers_reachable |].
  destruct (unbounded_calls_return (Build_FanoutWriterConfig [] 0 false)
              two_readers eq_refl two_readers_reachable)
    as (_ & _ & Hclose).
  apply (Hclose 1%nat). by exists 0.
Defined.

(** ** The offsets and the bytes written *)

Lemma offsets_in_range_run (ops : list op) :
  ∀ (s s' : store) (evs : list event),
    offsets_in_range s → 0 ≤ Limit (c (fw s)) →
    run ops s = Ok (s', evs) →
    offsets_in_range s' ∧ c (fw s') = c (fw s) ∧
    tail s' ≤ tail s + total_written ops.
Proof.
  induction ops as [| o ops IH]; intros s s' evs Hr Hlim Hrun.
  - simpl in Hrun. simplify_eq. simpl. split; [done |]. split; [done | lia].
  - apply run_cons_inv in Hrun as (s1 & e & es & Hstep & Hrest & ->).
    destruct (offsets_in_range_step o s s1 e Hr Hlim Hstep) as (Hr1 & Hc1 & Ht1).
    destruct (IH s1 s' es Hr1) as (Hr' & Hc' & Ht'); [by rewrite Hc1 | done |].
    split; [done |]. split; [congruence |]. cbn [total_written]. lia.
Qed.

(** X14: the offsets count bytes.  From a writer made with a limit that is
    not negative, after any calls that return: [f.off] and the offset of
    every client are at least 0, no client is past the end of the buffer,
    and the end of the buffer is at most where it began plus the number of
    bytes handed to [Write]. *)
Theorem offsets_bounded_by_written (cfg : FanoutWriterConfig)
    (ops : list op) (s : store) (evs : list event) :
  0 ≤ Limit cfg →
  run ops (NewFanoutWriter cfg) = Ok (s, evs) →
  0 ≤ off (fw s) ∧
  (∀ r o, heap s !! r = Some o → 0 ≤ o ≤ tail s) ∧
  tail s ≤ tail (NewFanoutWriter cfg) + total_written ops.
Proof.
  intros Hlim Hrun.
  destruct (offsets_in_range_run ops (NewFanoutWriter cfg) s evs)
    as ([Hoff Hb] & _ & Ht); try done.
  split.
  - simpl. pose proof (len_nonneg (Buf cfg)).
    destruct (ReadFromStart cfg); simpl; lia.
  - intros r o Ho. simpl in Ho. by rewrite lookup_empty in Ho.
Qed.

Lemma offsets_bounded_by_written_witness :
  0 ≤ Limit tail6 ∧
  run [OpNewReader; OpWrite (bytes 1 5); OpWrite (bytes 6 5)]
      (NewFanoutWriter tail6)
  = Ok (stranded_store, [EvNewReader 0; EvWrite 5 None; EvWrite 5 None]) ∧
  tail stranded_store ≤ 0 + 10.
Proof.
  assert (Hrun : run [OpNewReader; OpWrite (bytes 1 5); OpWrite (bytes 6 5)]
                   (NewFanoutWriter tail6)
                 = Ok (stranded_store,
                       [EvNewReader 0; EvWrite 5 None; EvWrite 5 None]))
    by (by vm_compute).
  split; [discriminate |]. split; [exact Hrun |].
  exact (proj2 (proj2
    (offsets_bounded_by_written tail6 _ stranded_store _
       (λ H : (0 ?= 6) = Gt, eq_ind Lt
          (λ x, match x with Gt => False | _ => True end) I Gt H)
       Hrun))).
Defined.

(** ** Waking a suspended [Read] *)

Lemma Read_wait_inv (r : ptr) (q : list byte) (s s' : store) :
  client_Read r q s = Ok (s', ReadWait) →
  s' = s ∧ heap s !! r = Some (tail s) ∧ closed (fw s) = false.
Proof.
  intros H. apply Read_inv in H.
  inversion H as [coff Hr Hout | coff Hr Ht Hs Hx | coff Hr Hin Hq
                 | coff s1 Hr Hin Hq lbuf Hu]; subst.
  destruct (closed (fw s')) eqn:Hc; [discriminate |]. done.
Qed.

(** X15: the writer's [Close] wakes a reader with [io.EOF].  If the loop
    body of [Read] on [r] ended in [update.Wait()], then after the writer's
    [Close], which returns [nil] and changes no buffer, offset or
    registration, the next run of the loop body returns [(0, io.EOF)] and
    leaves the destination and the store alone; and from then on a
    non-empty [Write] is refused with [io.ErrClosedPipe]. *)
Theorem Close_wakes_reader (s s0 : store) (r : ptr) (q : list byte) :
  client_Read r q s = Ok (s0, ReadWait) →
  ∃ s1, fwriter_Close s = Ok (s1, None) ∧
        buf (fw s1) = buf (fw s) ∧ off (fw s1) = off (fw s) ∧
        heap s1 = heap s ∧ clients (fw s1) = clients (fw s) ∧
        client_Read r q s1 = Ok (s1, ReadReturn 0 (Some EOF) q) ∧
        ∀ p, p ≠ [] → fwriter_Write p s1 = Ok (s1, (0, Some ErrClosedPipe)).
Proof.
  intros H. apply Read_wait_inv in H as (_ & Hr & Hc).
  eexists. split; [reflexivity |]. split; [done |]. split; [done |].
  split; [done |]. split; [done |]. split.
  - match goal with |- client_Read r q ?s1 = _ =>
      by rewrite (Read_drained s1 r (tail s) q Hr eq_refl)
    end.
  - intros p Hp. unfold fwriter_Write. by rewrite (len_pos_of_ne_nil p Hp).
Qed.

Lemma Close_wakes_reader_witness :
  client_Read 0%nat (dst 10) drained6 = Ok (drained6, ReadWait) ∧
  ∃ s1, fwriter_Close drained6 = Ok (s1, None) ∧
        client_Read 0%nat (dst 10) s1
        = Ok (s1, ReadReturn 0 (Some EOF) (dst 10)).
Proof.
  assert (H : client_Read 0%nat (dst 10) drained6 = Ok (drained6, ReadWait))
    by reflexivity.
  split; [exact H |].
  destruct (Close_wakes_reader drained6 drained6 0%nat (dst 10) H)
    as (s1 & Hc & _ & _ & _ & _ & Hread & _).
  exists s1. split; [exact Hc | exact Hread].
Defined.

(** X16: a write wakes a reader with its bytes.  The writer has no limit,
    every registered reader is inside the window, [r] is registered and the
    loop body of its [Read] ended in [update.Wait()].  After a non-empty
    [Write] of [p], which returns [(len(p), nil)], the next run of the loop
    body returns; it hands [r] the first [len(q)] bytes of [p] (all of [p]
    if it is shorter) and leaves the rest of [p] waiting. *)
Theorem Write_wakes_reader (s s0 : store) (r : ptr) (p q : list byte) :
  Limit (c (fw s)) = 0 → window_inv s → r ∈ clients (fw s) →
  client_Read r q s = Ok (s0, ReadWait) →
  p ≠ [] →
  ∃ s1 s2 x,
    fwriter_Write p s = Ok (s1, (len p, None)) ∧
    client_Read r q s1 = Ok (s2, x) ∧
    delivered r (EvRead r x) = take (length q) p ∧
    unread s2 r = drop (length q) p.
Proof.
  intros Hl Hw Hin Hwait Hp.
  apply Read_wait_inv in Hwait as (_ & Hr & Hc).
  assert (Hwrite : fwriter_Write p s
                   = Ok (with_fw (set_buf (buf (fw s) ++ p) (fw s)) s,
                         (len p, None))).
  { unfold fwriter_Write.
    rewrite (len_pos_of_ne_nil p Hp), Hc, (registered_size s r Hin), Hl.
    by rewrite andb_false_r. }
  set (s1 := with_fw (set_buf (buf (fw s) ++ p) (fw s)) s) in *.
  assert (window_inv s1) as Hw1.
  { apply (window_inv_step_unbounded (OpWrite p) s s1 (EvWrite (len p) None));
      [by split |]. unfold step. by rewrite Hwrite. }
  assert (unread s r = []) as Hempty.
  { apply (unread_drained s r (tail s) Hr); [| done].
    unfold tail. pose proof (len_nonneg (buf (fw s))). lia. }
  pose proof (unread_append s r p Hw Hin) as Hun. fold s1 in Hun.
  rewrite Hempty in Hun. simpl in Hun.
  destruct (Read_in_window s1 r q Hw1 Hin) as (s2 & x & Hread & _ & Hd & Hu & _).
  exists s1, s2, x. split; [done |]. split; [done |].
  by rewrite Hd, Hu, Hun.
Qed.

(** One reader on an unbounded writer, nothing written yet. *)
Lemma Write_wakes_reader_witness :
  ∃ s,
    run [OpNewReader] NewDefaultFanoutWriter = Ok (s, [EvNewReader 0]) ∧
    client_Read 0%nat (dst 3) s = Ok (s, ReadWait) ∧
    ∃ s1 s2 x,
      fwriter_Write (bytes 1 5) s = Ok (s1, (5, None)) ∧
      client_Read 0%nat (dst 3) s1 = Ok (s2, x) ∧
      delivered 0%nat (EvRead 0%nat x) = bytes 1 3 ∧
      unread s2 0%nat = bytes 4 2.
Proof.
  assert (Hrun : ∃ s, run [OpNewReader] NewDefaultFanoutWriter
                      = Ok (s, [EvNewReader 0]) ∧
                      s = {| fw := {| buf := []; c := Build_FanoutWriterConfig [] 0 false;
                                      off := 0; clients := {[ 0%nat ]} ∪ ∅;
                                      closed := false |};
                             heap := <[ 0%nat := 0 ]> ∅ |}).
  { eexists. split; reflexivity. }
  destruct Hrun as (s & Hrun & ->).
  eexists. split; [exact Hrun |].
  match goal with |- client_Read _ _ ?s = _ ∧ _ => set (s0 := s) end.
  assert (Hwait : client_Read 0%nat (dst 3) s0 = Ok (s0, ReadWait))
    by reflexivity.
  split; [exact Hwait |].
  assert (Hin : 0%nat ∈ clients (fw s0)).
  { apply elem_of_union_l. by apply elem_of_singleton. }
  assert (Hw : window_inv s0).
  { intros r Hr. apply elem_of_union in Hr as [Hr | Hr];
      [| by apply not_elem_of_empty in Hr].
    apply elem_of_singleton in Hr as ->. exists 0.
    split; [reflexivity |]. vm_compute. split; discriminate. }
  exact (Write_wakes_reader s0 s0 0%nat (bytes 1 5) (dst 3) eq_refl Hw Hin Hwait
           (λ H : bytes 1 5 = [], eq_ind (bytes 1 5)
              (λ l, match l with [] => False | _ :: _ => True end) I [] H)).
Defined.
